(** * Late capability-requirement pass of the Slang IR

    A shallow embedding of [source/slang/slang-ir-late-require-capability.cpp]
    (struct [ProcessLateRequireCapabilityInstsContext] and the entry point
    [processLateRequireCapabilityInsts]) together with the properties of the
    pass: failure status, marker consumption, checker decisions, accounting
    of checker invocations and the frame of the target capability baseline.

    The IR is a heap of instructions addressed by pointers.  Pointers are
    modelled as [positive] addresses, the functions of a module as a finite
    map from addresses to function objects, and a dereference of a pointer
    that does not point to the expected object as a crash of the run. *)

From stdpp Require Import base option list gmap strings sorting.

Set Default Proof Using "Type".

(** ** Capabilities *)

(** [enum class CapabilityAtom] and [enum class CapabilityName]: opaque
    tokens. *)
Abbreviation CapabilityAtom := N.
Abbreviation CapabilityName := N.

(** [CapabilityAtomSet] is a bit set of atoms ([UIntSet]). *)
Abbreviation CapabilityAtomSet := (gset N).

(** Modelled from the spec: [CapabilityAtomSet::calcSubtract] is declared in
    the capability headers, not in this file; the spec gives
    [subtract(A,B) = A \ B], the elements of [A] absent from [B]. *)
Definition calcSubtract (thisSet that : CapabilityAtomSet) : CapabilityAtomSet :=
  thisSet ∖ that.

(** Modelled from the spec: [UIntSet::getElements] is declared in the set
    headers, not in this file.  The spec has the atom set as a set of atoms
    with unique membership, and the diagnostic as carrying the enumerated
    missing atoms: the members of the set are listed, once each, in ascending
    order of the atoms, the order in which a bit set is walked. *)
Definition getElements (s : CapabilityAtomSet) : list CapabilityAtom :=
  merge_sort N.le (elements s).

(** [CapabilitySet::ImpliesReturnFlags]. *)
Inductive ImpliesReturnFlags := NotImplied | Implied.

#[global] Instance ImpliesReturnFlags_eq_dec : EqDecision ImpliesReturnFlags.
Proof. solve_decision. Defined.

(** The capability algebra the pass calls into.  Its implementation lives in
    the capability sources; the pass only uses the operations below, so they
    are the interface the development is parametric in.  The in-place
    [CapabilitySet::join] is rendered as a function returning the new value
    of the receiver. *)
Class CapabilityAlgebra := {
  CapabilitySet : Type;
  (** the converting constructor [CapabilitySet(CapabilityName)] *)
  CapabilitySet_ofName : CapabilityName → CapabilitySet;
  (** [receiver.join(other)] *)
  CapabilitySet_join : CapabilitySet → CapabilitySet → CapabilitySet;
  (** [receiver.atLeastOneSetImpliedInOther(other)] *)
  atLeastOneSetImpliedInOther : CapabilitySet → CapabilitySet → ImpliesReturnFlags;
  (** [getAtomSets()]: the iterator over the atom sets, as the list it walks;
      the iterator tests true when the list is not empty and dereferences to
      the head. *)
  getAtomSets : CapabilitySet → list CapabilityAtomSet
}.

(** ** Results, options, diagnostics *)

(** [SlangResult] is a signed 32-bit code; [SLANG_OK] is 0 and [SLANG_FAIL]
    is 0x80004005 read as a negative number. *)
Abbreviation SlangResult := Z.
Definition SLANG_OK : SlangResult := 0%Z.
Definition SLANG_FAIL : SlangResult := (0x80004005 - 0x100000000)%Z.
Definition SLANG_SUCCEEDED (r : SlangResult) : bool := bool_decide (0 ≤ r)%Z.

Abbreviation SourceLoc := N.
Abbreviation CodeGenTarget := N.

Inductive CompilerOptionName := RestrictiveCapabilityCheck.

Record CompilerOptionSet := mkOptionSet {
  optRestrictiveCapabilityCheck : bool;
  (** [getProfile().getName()] *)
  optProfileName : string
}.

Definition getBoolOption (o : CompilerOptionSet) (n : CompilerOptionName) : bool :=
  match n with
  | RestrictiveCapabilityCheck => optRestrictiveCapabilityCheck o
  end.

Inductive DiagnosticInfo :=
  | profileImplicitlyUpgraded
  | profileImplicitlyUpgradedRestrictive
  | seeCallOfFunc.

(** Where a diagnostic points: [getDiagnosticPos(inst)] of an instruction,
    or a source location given directly. *)
Inductive DiagnosticPos :=
  | PosOfInst (inst : positive)
  | PosLoc (loc : SourceLoc).

Inductive DiagnosticArg :=
  | ArgInst (inst : positive)
  | ArgString (s : string)
  | ArgAtoms (atoms : list CapabilityAtom).

Record Diagnostic := mkDiagnostic {
  diag_pos : DiagnosticPos;
  diag_info : DiagnosticInfo;
  diag_args : list DiagnosticArg
}.

(** The sink, as the sequence of diagnostics written to it so far. *)
Abbreviation DiagnosticSink := (list Diagnostic).

Definition diagnose (pos : DiagnosticPos) (info : DiagnosticInfo)
    (args : list DiagnosticArg) (sink : DiagnosticSink) : DiagnosticSink :=
  sink ++ [mkDiagnostic pos info args].

(** Modelled from the spec: [maybeDiagnoseWarningOrError] is a helper of the
    diagnostics module, not of this file.  The spec: "Emit one diagnostic at
    the entry point's location: an implicit capability upgrade notice whose
    wording/severity depends on the restrictive flag (advisory phrasing vs
    restrictive phrasing)". *)
Definition maybeDiagnoseWarningOrError (optionSet : CompilerOptionSet)
    (pos : DiagnosticPos) (warningInfo errorInfo : DiagnosticInfo)
    (args : list DiagnosticArg) (sink : DiagnosticSink) : DiagnosticSink :=
  if getBoolOption optionSet RestrictiveCapabilityCheck
  then diagnose pos errorInfo args sink
  else diagnose pos warningInfo args sink.

(** ** Crashing runs *)

Inductive Crash :=
  | NullCapabilitySet      (* [capSet->getCaps()] on a null [capSet] *)
  | DanglingFunction.      (* a function pointer that points to no function *)

Inductive Run (A : Type) :=
  | Ok (a : A)
  | Crashed (c : Crash).
Arguments Ok {A} a.
Arguments Crashed {A} c.

#[global] Instance Run_ret : MRet Run := λ A a, Ok a.
#[global] Instance Run_bind : MBind Run := λ A B k r,
  match r with
  | Ok a => k a
  | Crashed c => Crashed c
  end.

(** [for (auto x : xs) body(x)] over a state that may crash. *)
Fixpoint forEach {A S : Type} (body : A → S → Run S) (xs : list A) (s : S) : Run S :=
  match xs with
  | [] => Ok s
  | x :: xs' => s' ← body x s; forEach body xs' s'
  end.

Section Pass.
Context {caps : CapabilityAlgebra}.

(** ** The IR *)

Record Profile := mkProfile {
  profile_raw : N;
  getCapabilityName : CapabilityName
}.

Record IREntryPointDecoration := mkEntryPointDecoration {
  getProfile : Profile
}.

(** An [IRCapabilitySet] instruction: the capability set it denotes and its
    source location. *)
Record IRCapabilitySet := mkIRCapabilitySet {
  getCaps : CapabilitySet;
  capSet_sourceLoc : SourceLoc
}.

(** What operand 0 of a marker points to. *)
Inductive IROperand :=
  | OperandCapabilitySet (c : IRCapabilitySet)
  | OperandOtherInst (inst : positive)
  | OperandNull.

(** [as<IRCapabilitySet>(inst)]: a dynamic cast, null when it fails. *)
Definition as_IRCapabilitySet (o : IROperand) : option IRCapabilitySet :=
  match o with
  | OperandCapabilitySet c => Some c
  | _ => None
  end.

Record IRLateRequireCapability := mkLateRequireCapability {
  lateRequireCap_addr : positive;
  getCapabilitySet : IROperand
}.

(** An ordinary instruction of a block: a requirement marker or anything
    else. *)
Inductive IRInst :=
  | InstLateRequireCapability (m : IRLateRequireCapability)
  | InstOther (self : positive).

Definition inst_addr (i : IRInst) : positive :=
  match i with
  | InstLateRequireCapability m => lateRequireCap_addr m
  | InstOther a => a
  end.

(** [as<IRLateRequireCapability>(inst)]. *)
Definition as_IRLateRequireCapability (i : IRInst) : option IRLateRequireCapability :=
  match i with
  | InstLateRequireCapability m => Some m
  | InstOther _ => None
  end.

(** A block, by its ordinary instructions: those after its parameters, which
    the scan does not visit. *)
Record IRBlock := mkBlock {
  getOrdinaryInsts : list IRInst
}.

Record IRFunc := mkFunc {
  (** [findDecoration<IREntryPointDecoration>()] *)
  findEntryPointDecoration : option IREntryPointDecoration;
  getBlocks : list IRBlock
}.

(** A module: the children of the module instruction in order, and the
    function objects among the heap's instructions.  A child whose address
    holds no function is a global instruction of another kind. *)
Record IRModule := mkModule {
  moduleChildren : list positive;
  moduleFuncs : gmap positive IRFunc
}.

(** [as<IRFunc>(inst)] *)
Definition as_IRFunc (m : IRModule) (inst : positive) : option IRFunc :=
  moduleFuncs m !! inst.

(** ** The pass context *)

(** One call of [checkCapability], as the run made it: its three arguments
    and the value of the local [targetCaps] after the stage capabilities were
    joined into it. *)
Record Invocation := mkInvocation {
  inv_entry : positive;
  inv_profile : Profile;
  inv_capSet : IRCapabilitySet;
  inv_targetCaps : CapabilitySet
}.

(** What an observer of a run sees, in order: the scan meets a marker, the
    checker is called. *)
Inductive Event :=
  | EvScanned (lateRequireCap : positive)
  | EvChecked (i : Invocation).

(** [struct ProcessLateRequireCapabilityInstsContext].  The objects behind
    the pointers [m_module] and [m_sink] and the reference [m_optionSet] are
    part of the state.  [ghost_trace] is not in the struct: it records the
    events of the run, and nothing reads it. *)
Record Context := mkContext {
  m_module : IRModule;
  m_targetCaps : CapabilitySet;
  m_target : CodeGenTarget;
  m_optionSet : CompilerOptionSet;
  m_sink : DiagnosticSink;
  m_status : SlangResult;
  m_mapInstToReferencingEntryPoints : gmap positive (list positive);
  ghost_trace : list Event
}.

Definition set_module (m : IRModule) (c : Context) : Context :=
  mkContext m (m_targetCaps c) (m_target c) (m_optionSet c) (m_sink c)
    (m_status c) (m_mapInstToReferencingEntryPoints c) (ghost_trace c).

Definition set_sink (s : DiagnosticSink) (c : Context) : Context :=
  mkContext (m_module c) (m_targetCaps c) (m_target c) (m_optionSet c) s
    (m_status c) (m_mapInstToReferencingEntryPoints c) (ghost_trace c).

Definition set_status (r : SlangResult) (c : Context) : Context :=
  mkContext (m_module c) (m_targetCaps c) (m_target c) (m_optionSet c)
    (m_sink c) r (m_mapInstToReferencingEntryPoints c) (ghost_trace c).

Definition set_map (g : gmap positive (list positive)) (c : Context) : Context :=
  mkContext (m_module c) (m_targetCaps c) (m_target c) (m_optionSet c)
    (m_sink c) (m_status c) g (ghost_trace c).

Definition record_event (e : Event) (c : Context) : Context :=
  mkContext (m_module c) (m_targetCaps c) (m_target c) (m_optionSet c)
    (m_sink c) (m_status c) (m_mapInstToReferencingEntryPoints c)
    (ghost_trace c ++ [e]).

(** ** [checkCapability] *)

(** The delta shown in the diagnostic: both iterators are tested before the
    subtraction, and [addedAtoms] stays empty when either is exhausted. *)
Definition addedAtoms (targetCaps required : CapabilitySet) : CapabilityAtomSet :=
  match head (getAtomSets targetCaps) with
  | Some stageCapSet =>
      match head (getAtomSets required) with
      | Some requiredSet => calcSubtract requiredSet stageCapSet
      | None => ∅
      end
  | None => ∅
  end.

Definition checkCapability (entry : positive) (profile : Profile)
    (capSet : option IRCapabilitySet) (ctx : Context) : Run Context :=
  let targetCaps := m_targetCaps ctx in
  let stageCapabilitySet := CapabilitySet_ofName (getCapabilityName profile) in
  match capSet with
  | None => Crashed NullCapabilitySet
  | Some capSet =>
      let required := getCaps capSet in
      let targetCaps := CapabilitySet_join targetCaps stageCapabilitySet in
      let ctx := record_event (EvChecked (mkInvocation entry profile capSet targetCaps)) ctx in
      if decide (atLeastOneSetImpliedInOther targetCaps required = Implied)
      then Ok ctx
      else
        let required := CapabilitySet_join required stageCapabilitySet in
        let addedAtoms := addedAtoms targetCaps required in
        let ctx :=
          set_sink
            (maybeDiagnoseWarningOrError (m_optionSet ctx) (PosOfInst entry)
               profileImplicitlyUpgraded profileImplicitlyUpgradedRestrictive
               [ArgInst entry; ArgString (optProfileName (m_optionSet ctx));
                ArgAtoms (getElements addedAtoms)]
               (m_sink ctx)) ctx in
        let ctx :=
          set_sink
            (diagnose (PosLoc (capSet_sourceLoc capSet)) seeCallOfFunc
               [ArgString "__requireCapability()"] (m_sink ctx)) ctx in
        if getBoolOption (m_optionSet ctx) RestrictiveCapabilityCheck
        then Ok (set_status SLANG_FAIL ctx)
        else Ok ctx
  end.

(** ** [processFunc] *)

(** The body of the loop over [*entryPoints]. *)
Definition visitEntryPoint (lateRequireCap : IRLateRequireCapability)
    (entryPoint : positive) (ctx : Context) : Run Context :=
  match as_IRFunc (m_module ctx) entryPoint with
  | None => Crashed DanglingFunction
  | Some entryPointFunc =>
      match findEntryPointDecoration entryPointFunc with
      | Some entryPointDecor =>
          let capSet := as_IRCapabilitySet (getCapabilitySet lateRequireCap) in
          checkCapability entryPoint (getProfile entryPointDecor) capSet ctx
      | None => Ok ctx
      end
  end.

(** The body of the loop over the ordinary instructions of a block; the
    state is [instsToRemove] and the context. *)
Definition visitInst (func : positive) (inst : IRInst)
    (st : list positive * Context) : Run (list positive * Context) :=
  let '(instsToRemove, ctx) := st in
  match as_IRLateRequireCapability inst with
  | Some lateRequireCap =>
      let instsToRemove := instsToRemove ++ [lateRequireCap_addr lateRequireCap] in
      let ctx := record_event (EvScanned (lateRequireCap_addr lateRequireCap)) ctx in
      match m_mapInstToReferencingEntryPoints ctx !! func with
      | Some entryPoints =>
          ctx' ← forEach (visitEntryPoint lateRequireCap) entryPoints ctx;
          Ok (instsToRemove, ctx')
      | None => Ok (instsToRemove, ctx)
      end
  | None => Ok st
  end.

Definition visitBlock (func : positive) (block : IRBlock)
    (st : list positive * Context) : Run (list positive * Context) :=
  forEach (visitInst func) (getOrdinaryInsts block) st.

(** Unlinking one instruction from the blocks of a function. *)
Definition removeInst (a : positive) (f : IRFunc) : IRFunc :=
  mkFunc (findEntryPointDecoration f)
    (map (λ b, mkBlock (filter (λ i, inst_addr i ≠ a) (getOrdinaryInsts b)))
       (getBlocks f)).

(** [inst->removeAndDeallocate()] for an instruction owned by [func]. *)
Definition removeAndDeallocate (func : positive) (a : positive) (ctx : Context) : Context :=
  set_module
    (mkModule (moduleChildren (m_module ctx))
       (alter (removeInst a) func (moduleFuncs (m_module ctx)))) ctx.

(** The scan reads the blocks of [func]; nothing changes them before the
    removal loop, which runs after the scan. *)
Definition processFunc (func : positive) (ctx : Context) : Run Context :=
  match as_IRFunc (m_module ctx) func with
  | None => Crashed DanglingFunction
  | Some f =>
      st ← forEach (visitBlock func) (getBlocks f) ([], ctx);
      let '(instsToRemove, ctx) := st in
      Ok (foldl (λ ctx lateRequireCap, removeAndDeallocate func lateRequireCap ctx)
            ctx instsToRemove)
  end.

(** ** [processModule] and the entry point of the pass *)

Section Graph.
(** [buildEntryPointReferenceGraph] is the call-graph builder of
    [slang-ir-call-graph]; the pass is parametric in it.  A [HashSet] of
    entry points appears as the list its iteration yields. *)
Variable buildEntryPointReferenceGraph : IRModule → gmap positive (list positive).

(** The body of the loop over the children of the module instruction. *)
Definition visitGlobal (inst : positive) (ctx : Context) : Run Context :=
  match as_IRFunc (m_module ctx) inst with
  | None => Ok ctx
  | Some _ => processFunc inst ctx
  end.

Definition processModule (ctx : Context) : Run Context :=
  let ctx := set_map (buildEntryPointReferenceGraph (m_module ctx)) ctx in
  forEach visitGlobal (moduleChildren (m_module ctx)) ctx.

Record CodeGenContext := mkCodeGenContext {
  getTargetCaps : CapabilitySet;
  getTargetFormat : CodeGenTarget;
  getOptionSet : CompilerOptionSet
}.

(** The constructor of the context; [m_status] starts as [SLANG_OK] and the
    map starts empty. *)
Definition newContext (module : IRModule) (targetCaps : CapabilitySet)
    (target : CodeGenTarget) (optionSet : CompilerOptionSet)
    (sink : DiagnosticSink) : Context :=
  mkContext module targetCaps target optionSet sink SLANG_OK ∅ [].

(** [processLateRequireCapabilityInsts]: the context after [processModule];
    the value the C++ function returns is its [m_status]. *)
Definition runPass (module : IRModule) (codeGenContext : CodeGenContext)
    (sink : DiagnosticSink) : Run Context :=
  processModule
    (newContext module (getTargetCaps codeGenContext)
       (getTargetFormat codeGenContext) (getOptionSet codeGenContext) sink).

Definition processLateRequireCapabilityInsts (module : IRModule)
    (codeGenContext : CodeGenContext) (sink : DiagnosticSink) : Run SlangResult :=
  context ← runPass module codeGenContext sink;
  Ok (m_status context).

End Graph.

(** ** The events of a run, computed from the module

    The functions below compute what a run does to the sink, the status and
    the trace from the list of its events, and the list of events from the
    module, the target capabilities and the reference graph.  They are the
    vocabulary of the theorems; the theorems relate them to the run. *)

(** The checker found the target capabilities of the invocation not to imply
    the required set. *)
Definition deficient (i : Invocation) : Prop :=
  atLeastOneSetImpliedInOther (inv_targetCaps i) (getCaps (inv_capSet i)) ≠ Implied.

#[global] Instance deficient_dec i : Decision (deficient i).
Proof. unfold deficient. apply _. Defined.

(** The required set with the stage capabilities joined into it. *)
Definition displayRequired (i : Invocation) : CapabilitySet :=
  CapabilitySet_join (getCaps (inv_capSet i))
    (CapabilitySet_ofName (getCapabilityName (inv_profile i))).

Definition missingAtoms (i : Invocation) : CapabilityAtomSet :=
  addedAtoms (inv_targetCaps i) (displayRequired i).

Definition upgradeDiagnostic (o : CompilerOptionSet) (i : Invocation) : Diagnostic :=
  mkDiagnostic (PosOfInst (inv_entry i))
    (if getBoolOption o RestrictiveCapabilityCheck
     then profileImplicitlyUpgradedRestrictive else profileImplicitlyUpgraded)
    [ArgInst (inv_entry i); ArgString (optProfileName o);
     ArgAtoms (getElements (missingAtoms i))].

Definition seeCallDiagnostic (i : Invocation) : Diagnostic :=
  mkDiagnostic (PosLoc (capSet_sourceLoc (inv_capSet i))) seeCallOfFunc
    [ArgString "__requireCapability()"].

Definition eventDiagnostics (o : CompilerOptionSet) (e : Event) : list Diagnostic :=
  match e with
  | EvChecked i =>
      if decide (deficient i) then [upgradeDiagnostic o i; seeCallDiagnostic i] else []
  | EvScanned _ => []
  end.

Definition isDeficiency (e : Event) : bool :=
  match e with
  | EvChecked i => bool_decide (deficient i)
  | EvScanned _ => false
  end.

Definition statusAfter (o : CompilerOptionSet) (evs : list Event) (r : SlangResult) : SlangResult :=
  if getBoolOption o RestrictiveCapabilityCheck && existsb isDeficiency evs
  then SLANG_FAIL else r.

(** The context after the events [evs] happened to it. *)
Definition absorb (evs : list Event) (c : Context) : Context :=
  mkContext (m_module c) (m_targetCaps c) (m_target c) (m_optionSet c)
    (m_sink c ++ (evs ≫= eventDiagnostics (m_optionSet c)))
    (statusAfter (m_optionSet c) evs (m_status c))
    (m_mapInstToReferencingEntryPoints c)
    (ghost_trace c ++ evs).

Definition invocationsOf (evs : list Event) : list Invocation :=
  omap (λ e, match e with EvChecked i => Some i | EvScanned _ => None end) evs.

Definition scannedOf (evs : list Event) : list positive :=
  omap (λ e, match e with EvScanned a => Some a | EvChecked _ => None end) evs.

(** Events of a sequence of steps, each of which may crash. *)
Fixpoint collect {A B : Type} (f : A → Run (list B)) (xs : list A) : Run (list B) :=
  match xs with
  | [] => Ok []
  | x :: xs' => ys ← f x; zs ← collect f xs'; Ok (ys ++ zs)
  end.

Definition invocationFor (t : CapabilitySet) (entryPoint : positive)
    (d : IREntryPointDecoration) (c : IRCapabilitySet) : Invocation :=
  mkInvocation entryPoint (getProfile d) c
    (CapabilitySet_join t (CapabilitySet_ofName (getCapabilityName (getProfile d)))).

Definition planEntryPoint (m : IRModule) (t : CapabilitySet)
    (lateRequireCap : IRLateRequireCapability) (entryPoint : positive) : Run (list Event) :=
  match as_IRFunc m entryPoint with
  | None => Crashed DanglingFunction
  | Some f =>
      match findEntryPointDecoration f with
      | None => Ok []
      | Some d =>
          match as_IRCapabilitySet (getCapabilitySet lateRequireCap) with
          | None => Crashed NullCapabilitySet
          | Some c => Ok [EvChecked (invocationFor t entryPoint d c)]
          end
      end
  end.

(** The entry points the map attributes to a function; none when the map has
    no entry for it. *)
Definition attributed (g : gmap positive (list positive)) (func : positive) : list positive :=
  default [] (g !! func).

Definition planMarker (m : IRModule) (t : CapabilitySet)
    (g : gmap positive (list positive)) (func : positive)
    (lateRequireCap : IRLateRequireCapability) : Run (list Event) :=
  evs ← collect (planEntryPoint m t lateRequireCap) (attributed g func);
  Ok (EvScanned (lateRequireCap_addr lateRequireCap) :: evs).

Definition planInst (m : IRModule) (t : CapabilitySet)
    (g : gmap positive (list positive)) (func : positive) (inst : IRInst) : Run (list Event) :=
  match as_IRLateRequireCapability inst with
  | Some lateRequireCap => planMarker m t g func lateRequireCap
  | None => Ok []
  end.

Definition planFunc (m : IRModule) (t : CapabilitySet)
    (g : gmap positive (list positive)) (func : positive) (f : IRFunc) : Run (list Event) :=
  collect (λ b, collect (planInst m t g func) (getOrdinaryInsts b)) (getBlocks f).

(** The effect of events on the state of the scan, which is [instsToRemove]
    and the context, and the events of one instruction of the scan. *)
Definition scanAct (evs : list Event) (st : list positive * Context) : list positive * Context :=
  (st.1 ++ scannedOf evs, absorb evs st.2).

Definition scanPlan (func : positive) (st : list positive * Context) (inst : IRInst) : Run (list Event) :=
  planInst (m_module st.2) (m_targetCaps st.2) (m_mapInstToReferencingEntryPoints st.2) func inst.

(** The markers of a function in scan order. *)
Definition markersOf (f : IRFunc) : list IRLateRequireCapability :=
  b ← getBlocks f; omap as_IRLateRequireCapability (getOrdinaryInsts b).

(** A function after the instructions at the addresses [rem] were unlinked. *)
Definition unlinkAll (rem : list positive) (f : IRFunc) : IRFunc :=
  foldl (λ f a, removeInst a f) f rem.

Definition stripFunc (f : IRFunc) : IRFunc :=
  unlinkAll (lateRequireCap_addr <$> markersOf f) f.

Definition stripAt (func : positive) (m : IRModule) : IRModule :=
  mkModule (moduleChildren m) (alter stripFunc func (moduleFuncs m)).

(** The events of the loop over the global instructions [l], and the module
    it leaves. *)
Fixpoint planGlobals (t : CapabilitySet) (g : gmap positive (list positive))
    (l : list positive) (m : IRModule) : Run (list Event * IRModule) :=
  match l with
  | [] => Ok ([], m)
  | inst :: l' =>
      match as_IRFunc m inst with
      | None => planGlobals t g l' m
      | Some f =>
          evs ← planFunc m t g inst f;
          r ← planGlobals t g l' (stripAt inst m);
          Ok (evs ++ r.1, r.2)
      end
  end.

Definition planChild (m : IRModule) (t : CapabilitySet)
    (g : gmap positive (list positive)) (inst : positive) : Run (list Event) :=
  match as_IRFunc m inst with
  | None => Ok []
  | Some f => planFunc m t g inst f
  end.

Definition stripAll (l : list positive) (m : IRModule) : IRModule :=
  foldl (λ m a, stripAt a m) m l.

(** The events of a run that does not crash. *)
Definition eventsOfEntryPoint (m : IRModule) (t : CapabilitySet)
    (lateRequireCap : IRLateRequireCapability) (entryPoint : positive) : list Event :=
  match as_IRFunc m entryPoint ≫= findEntryPointDecoration,
        as_IRCapabilitySet (getCapabilitySet lateRequireCap) with
  | Some d, Some c => [EvChecked (invocationFor t entryPoint d c)]
  | _, _ => []
  end.

Definition eventsOfMarker (m : IRModule) (t : CapabilitySet)
    (g : gmap positive (list positive)) (func : positive)
    (lateRequireCap : IRLateRequireCapability) : list Event :=
  EvScanned (lateRequireCap_addr lateRequireCap) ::
  (attributed g func ≫= eventsOfEntryPoint m t lateRequireCap).

(** The functions of the module: the children of the module instruction that
    are functions, with their addresses. *)
Definition moduleFunctions (m : IRModule) : list (positive * IRFunc) :=
  omap (λ a, (a,.) <$> as_IRFunc m a) (moduleChildren m).

(** The markers of the module in scan order, each with its owning function. *)
Definition moduleMarkers (m : IRModule) : list (positive * IRLateRequireCapability) :=
  '(a, f) ← moduleFunctions m; (a,.) <$> markersOf f.

Definition eventsOfModule (m : IRModule) (t : CapabilitySet)
    (g : gmap positive (list positive)) : list Event :=
  '(func, lateRequireCap) ← moduleMarkers m; eventsOfMarker m t g func lateRequireCap.

(** The attributed entry points that carry the entry-point decoration. *)
Definition decoratedEntryPoints (m : IRModule) (g : gmap positive (list positive))
    (func : positive) : list positive :=
  filter (λ ep, is_Some (as_IRFunc m ep ≫= findEntryPointDecoration)) (attributed g func).

(** Visiting the marker cannot crash: the entry points attributed to its
    function are functions of the heap, and the operand is a capability set
    if one of them carries the decoration. *)
Definition markerSafe (m : IRModule) (g : gmap positive (list positive))
    (func : positive) (lateRequireCap : IRLateRequireCapability) : Prop :=
  ∀ ep, ep ∈ attributed g func →
    is_Some (as_IRFunc m ep) ∧
    (is_Some (as_IRFunc m ep ≫= findEntryPointDecoration) →
     is_Some (as_IRCapabilitySet (getCapabilitySet lateRequireCap))).

(** No crash can happen: the referenced entry points are functions of the
    heap, the operand of every marker is a capability set, and no pointer
    occurs twice among the children of the module instruction. *)
Record wellFormed (m : IRModule) (g : gmap positive (list positive)) : Prop := {
  wf_children : NoDup (moduleChildren m);
  wf_entryPoints : ∀ func ep, ep ∈ attributed g func → is_Some (as_IRFunc m ep);
  wf_operands : ∀ func lateRequireCap, (func, lateRequireCap) ∈ moduleMarkers m →
      is_Some (as_IRCapabilitySet (getCapabilitySet lateRequireCap))
}.

(** The two diagnostics a check writes when it finds a deficiency, none
    otherwise. *)
Definition invocationDiagnostics (o : CompilerOptionSet) (i : Invocation) : list Diagnostic :=
  if decide (deficient i) then [upgradeDiagnostic o i; seeCallDiagnostic i] else [].

(** The ordinary instructions of a function, block after block. *)
Definition instsOf (f : IRFunc) : list IRInst :=
  b ← getBlocks f; getOrdinaryInsts b.

(** The function with the same decoration and the same blocks, each block
    without its markers. *)
Definition withoutMarkers (f : IRFunc) : IRFunc :=
  mkFunc (findEntryPointDecoration f)
    (map (λ b, mkBlock (filter (λ i, as_IRLateRequireCapability i = None)
                          (getOrdinaryInsts b)))
       (getBlocks f)).

(** Every entry point of the reference graph is a function of the heap. *)
Definition liveEntryPoints (m : IRModule) (g : gmap positive (list positive)) : Prop :=
  map_Forall (λ _ eps, Forall (λ ep, is_Some (as_IRFunc m ep)) eps) g.

(** The markers of all the functions of the heap, children of the module
    instruction or not, each with its owning function. *)
Definition heapMarkers (m : IRModule) : list (positive * IRLateRequireCapability) :=
  x ← map_to_list (moduleFuncs m); (x.1,.) <$> markersOf x.2.

(** The count of attributed entry points over all the markers of the heap. *)
Definition heapAttributedTotal (m : IRModule) (g : gmap positive (list positive)) : nat :=
  sum_list_with (λ x, length (attributed g x.1)) (heapMarkers m).

(** Modelled from the spec: [buildEntryPointReferenceGraph] is the call-graph
    builder, not in this file.  The spec: the map, built once per module
    before the scan, yields for a function node "the set of entry-point
    functions that can reach it through the call graph", an entry point being
    a function that carries the entry-point decoration.  So every function a
    graph of the builder attributes is a function of the heap with the
    decoration. *)
Definition entryPointGraph (m : IRModule) (g : gmap positive (list positive)) : Prop :=
  map_Forall
    (λ _ eps, Forall (λ ep, is_Some (as_IRFunc m ep ≫= findEntryPointDecoration)) eps) g.

(** A check of [wellFormed] that computes. *)
Definition wellFormedb (m : IRModule) (g : gmap positive (list positive)) : bool :=
  bool_decide (NoDup (moduleChildren m))
  && bool_decide (map_Forall (λ _ eps, Forall (λ ep, is_Some (as_IRFunc m ep)) eps) g)
  && forallb (λ x, bool_decide (is_Some (as_IRCapabilitySet (getCapabilitySet x.2))))
       (moduleMarkers m).

(** The number of checker calls a literal count of attributed entry points
    gives, and the number over the entry points that carry the decoration. *)
Definition attributedTotal (m : IRModule) (g : gmap positive (list positive)) : nat :=
  sum_list_with (λ x, length (attributed g x.1)) (moduleMarkers m).

Definition decoratedTotal (m : IRModule) (g : gmap positive (list positive)) : nat :=
  sum_list_with (λ x, length (decoratedEntryPoints m g x.1)) (moduleMarkers m).

End Pass.

(** ** A capability algebra and a module to run the pass on *)

(** Modelled from the spec: the capability-set operations are implemented in
    the capability sources, not in this file.  The spec: a capability set is
    a set of atom sets (alternatives); [impliesAny] returns Implied if some
    alternative of the receiver is a superset of some alternative of the
    required set; [join] folds the guarantees of the other set into every
    alternative of the receiver; the primary alternative is the first.  A
    capability name [n] other than 0 guarantees the atom [n]; the name 0
    guarantees nothing. *)
Definition dnf_join (s o : list (gset N)) : list (gset N) :=
  match s, o with
  | [], _ => o
  | _, [] => s
  | _, _ => a ← s; b ← o; [a ∪ b]
  end.

Definition dnf_implies (s r : list (gset N)) : ImpliesReturnFlags :=
  if existsb (λ a, existsb (λ b, bool_decide (b ⊆ a)) r) s then Implied else NotImplied.

Definition dnf_ofName (n : N) : list (gset N) :=
  if decide (n = 0%N) then [∅] else [{[n]}].

Definition dnfCapabilities : CapabilityAlgebra :=
  {| CapabilitySet := list (gset N);
     CapabilitySet_ofName := dnf_ofName;
     CapabilitySet_join := dnf_join;
     atLeastOneSetImpliedInOther := dnf_implies;
     getAtomSets := λ s, s |}.

(** A helper function (address 3) with one marker (address 31) requiring the
    atom 5, reachable from three functions: an entry point whose stage
    guarantees the atom 5 (address 1), an entry point whose stage guarantees
    nothing (address 2), and a function without the entry-point decoration
    (address 4).  The child at address 9 is not a function. *)
Definition ex_capSet : @IRCapabilitySet dnfCapabilities :=
  mkIRCapabilitySet (caps := dnfCapabilities) [{[5%N]}] 70%N.

Definition ex_marker : @IRLateRequireCapability dnfCapabilities :=
  mkLateRequireCapability 31%positive (OperandCapabilitySet ex_capSet).

Definition ex_profileA : Profile := mkProfile 1%N 5%N.
Definition ex_profileB : Profile := mkProfile 2%N 0%N.

Definition ex_helper : @IRFunc dnfCapabilities :=
  mkFunc None
    [mkBlock [InstOther 30%positive; InstLateRequireCapability ex_marker;
              InstOther 32%positive]].

Definition ex_module : @IRModule dnfCapabilities :=
  mkModule [1; 2; 3; 4; 9]%positive
    (list_to_map
       [(1%positive, mkFunc (Some (mkEntryPointDecoration ex_profileA)) [mkBlock [InstOther 10%positive]]);
        (2%positive, mkFunc (Some (mkEntryPointDecoration ex_profileB)) [mkBlock [InstOther 20%positive]]);
        (3%positive, ex_helper);
        (4%positive, mkFunc None [mkBlock [InstOther 40%positive]])]).

(** A marker at the same place whose operand is the null pointer. *)
Definition ex_nullMarker : @IRLateRequireCapability dnfCapabilities :=
  mkLateRequireCapability 31%positive OperandNull.

Definition ex_build (m : @IRModule dnfCapabilities) : gmap positive (list positive) :=
  {[ 3%positive := [1; 2; 4]%positive ]}.

Definition ex_options : CompilerOptionSet := mkOptionSet true "sm_6_0".

Definition ex_codeGenContext : @CodeGenContext dnfCapabilities :=
  mkCodeGenContext (caps := dnfCapabilities) [∅] 0%N ex_options.

Definition ex_context : @Context dnfCapabilities :=
  set_map (ex_build ex_module)
    (newContext ex_module (getTargetCaps ex_codeGenContext)
       (getTargetFormat ex_codeGenContext) (getOptionSet ex_codeGenContext) []).


(** The context the run on the example module ends with. *)
Definition ex_afterRun : @Context dnfCapabilities :=
  set_module (stripAll (moduleChildren ex_module) ex_module)
    (absorb (eventsOfModule ex_module (getTargetCaps ex_codeGenContext)
               (ex_build ex_module)) ex_context).

(** A reference graph without entries, an advisory configuration with other
    target capabilities, and the context the run with them ends with. *)
Definition ex_orphanBuild (m : @IRModule dnfCapabilities) : gmap positive (list positive) :=
  ∅.

Definition ex_advisoryCodeGenContext : @CodeGenContext dnfCapabilities :=
  mkCodeGenContext (caps := dnfCapabilities) [{[7%N]}] 1%N (mkOptionSet false "glsl_450").

Definition ex_afterOrphanRun : @Context dnfCapabilities :=
  set_module (stripAll (moduleChildren ex_module) ex_module)
    (absorb (eventsOfModule ex_module (getTargetCaps ex_advisoryCodeGenContext)
               (ex_orphanBuild ex_module))
       (set_map (ex_orphanBuild ex_module)
          (newContext ex_module (getTargetCaps ex_advisoryCodeGenContext)
             (getTargetFormat ex_advisoryCodeGenContext)
             (getOptionSet ex_advisoryCodeGenContext) []))).

(** The example module with the null marker in place of the marker. *)
Definition ex_nullModule : @IRModule dnfCapabilities :=
  mkModule [1; 2; 3; 4; 9]%positive
    (<[3%positive :=
         mkFunc None
           [mkBlock [InstOther 30%positive; InstLateRequireCapability ex_nullMarker;
                     InstOther 32%positive]]]> (moduleFuncs ex_module)).

(** A capability set requiring two atoms. *)
Definition ex_wideCapSet : @IRCapabilitySet dnfCapabilities :=
  mkIRCapabilitySet (caps := dnfCapabilities) [{[9%N; 5%N]}] 71%N.

(** A reference graph that attributes the two decorated entry points of the
    example module to the helper function. *)
Definition ex_entryPointBuild (m : @IRModule dnfCapabilities) : gmap positive (list positive) :=
  {[ 3%positive := [1; 2]%positive ]}.

(** A module whose helper function, with its marker, is a function of the
    heap but not a child of the module instruction; a graph that attributes
    the first entry point to it; and the context the run ends with. *)
Definition ex_nestedModule : @IRModule dnfCapabilities :=
  mkModule [1; 2]%positive
    (list_to_map
       [(1%positive, mkFunc (Some (mkEntryPointDecoration ex_profileA)) [mkBlock [InstOther 10%positive]]);
        (2%positive, mkFunc (Some (mkEntryPointDecoration ex_profileB)) [mkBlock [InstOther 20%positive]]);
        (3%positive, ex_helper)]).

Definition ex_nestedBuild (m : @IRModule dnfCapabilities) : gmap positive (list positive) :=
  {[ 3%positive := [1%positive] ]}.

Definition ex_nestedAfterRun : @Context dnfCapabilities :=
  set_module (stripAll (moduleChildren ex_nestedModule) ex_nestedModule)
    (absorb (eventsOfModule ex_nestedModule (getTargetCaps ex_codeGenContext)
               (ex_nestedBuild ex_nestedModule))
       (set_map (ex_nestedBuild ex_nestedModule)
          (newContext ex_nestedModule (getTargetCaps ex_codeGenContext)
             (getTargetFormat ex_codeGenContext) (getOptionSet ex_codeGenContext) []))).

(** * Properties of the pass *)

(** ** Runs that may crash *)

Lemma Run_bind_Ok {A B} (k : A → Run B) (a : A) : Ok a ≫= k = k a.
Proof. reflexivity. Qed.

Lemma Run_bind_inv {A B} (k : A → Run B) (r : Run A) (b : B) :
  r ≫= k = Ok b → ∃ a, r = Ok a ∧ k a = Ok b.
Proof. destruct r as [a|c]; [eauto | discriminate]. Qed.

Lemma collect_ext_in {A B} (f f' : A → Run (list B)) (xs : list A) :
  (∀ x, x ∈ xs → f x = f' x) → collect f xs = collect f' xs.
Proof.
  induction xs as [|x xs IH]; intros Hf; [done|]. simpl.
  rewrite Hf by left. rewrite IH; [done|]. intros y Hy. apply Hf. by right.
Qed.

Lemma collect_Ok {A B} (f : A → Run (list B)) (h : A → list B) (xs : list A) :
  (∀ x, x ∈ xs → f x = Ok (h x)) → collect f xs = Ok (xs ≫= h).
Proof.
  induction xs as [|x xs IH]; intros Hf; [done|]. simpl.
  rewrite Hf by left. rewrite IH; [done|]. intros y Hy. apply Hf. by right.
Qed.

Lemma list_bind_bind {A B C} (f : A → list B) (k : B → list C) (l : list A) :
  (l ≫= f) ≫= k = l ≫= (λ x, f x ≫= k).
Proof.
  induction l as [|x l IH]; [done|]. csimpl. by rewrite bind_app, IH.
Qed.

Lemma omap_bind {A B C} (f : A → option B) (k : B → list C) (l : list A) :
  omap f l ≫= k = l ≫= (λ x, match f x with Some y => k y | None => [] end).
Proof.
  induction l as [|x l IH]; [done|]. csimpl.
  destruct (f x); csimpl; by rewrite IH.
Qed.

Lemma list_bind_ext_in {A B} (f g : A → list B) (l : list A) :
  (∀ x, x ∈ l → f x = g x) → l ≫= f = l ≫= g.
Proof.
  induction l as [|x l IH]; intros Hfg; [done|]. csimpl.
  rewrite Hfg by left. rewrite IH; [done|]. intros y Hy. apply Hfg. by right.
Qed.

Lemma filter_all {A} (P : A → Prop) `{!∀ x, Decision (P x)} (l : list A) :
  (∀ x, x ∈ l → P x) → filter P l = l.
Proof.
  induction l as [|x l IH]; intros HP; [done|].
  rewrite filter_cons_True by (apply HP; left).
  rewrite IH; [done|]. intros y Hy. apply HP. by right.
Qed.

(** A loop whose body computes its events from a part of the state that the
    events do not change is the computation of all its events followed by
    their effect. *)
Lemma forEach_collect {A B S : Type} (body : A → S → Run S)
    (plan : S → A → Run (list B)) (act : list B → S → S) :
  (∀ s, act [] s = s) →
  (∀ ys zs s, act zs (act ys s) = act (ys ++ zs) s) →
  (∀ ys s x, plan (act ys s) x = plan s x) →
  (∀ x s, body x s = ys ← plan s x; Ok (act ys s)) →
  ∀ xs s, forEach body xs s = ys ← collect (plan s) xs; Ok (act ys s).
Proof.
  intros Hnil Happ Hframe Hbody xs.
  induction xs as [|x xs IH]; intros s; simpl.
  - by rewrite Hnil.
  - rewrite Hbody. destruct (plan s x) as [ys|c] eqn:Hx; [|done]. simpl.
    rewrite IH.
    rewrite (collect_ext_in (plan (act ys s)) (plan s)) by (intros; apply Hframe).
    destruct (collect (plan s) xs) as [zs|]; [|done]. simpl.
    by rewrite Happ.
Qed.

Section Theory.
Context {caps : CapabilityAlgebra}.

(** ** The effect of events on a context *)

Lemma statusAfter_nil o r : statusAfter o [] r = r.
Proof. unfold statusAfter. simpl. by rewrite andb_false_r. Qed.

Lemma statusAfter_app o evs evs' r :
  statusAfter o evs' (statusAfter o evs r) = statusAfter o (evs ++ evs') r.
Proof.
  unfold statusAfter. rewrite existsb_app.
  destruct (getBoolOption o RestrictiveCapabilityCheck); [|done]. simpl.
  by destruct (existsb isDeficiency evs), (existsb isDeficiency evs').
Qed.

Lemma absorb_nil c : absorb [] c = c.
Proof.
  destruct c. unfold absorb. simpl.
  by rewrite statusAfter_nil, !app_nil_r.
Qed.

Lemma absorb_app evs evs' c : absorb evs' (absorb evs c) = absorb (evs ++ evs') c.
Proof.
  unfold absorb. simpl.
  by rewrite statusAfter_app, bind_app, <- !app_assoc.
Qed.

Lemma invocationsOf_app evs evs' :
  invocationsOf (evs ++ evs') = invocationsOf evs ++ invocationsOf evs'.
Proof. apply omap_app. Qed.

Lemma scannedOf_app evs evs' :
  scannedOf (evs ++ evs') = scannedOf evs ++ scannedOf evs'.
Proof. apply omap_app. Qed.

(** ** [checkCapability] as one event *)

Lemma checkCapability_Some entry profile capSet ctx :
  checkCapability entry profile (Some capSet) ctx =
  Ok (absorb
        [EvChecked
           (mkInvocation entry profile capSet
              (CapabilitySet_join (m_targetCaps ctx)
                 (CapabilitySet_ofName (getCapabilityName profile))))] ctx).
Proof.
  unfold checkCapability, absorb, statusAfter, maybeDiagnoseWarningOrError, diagnose.
  simpl. unfold deficient. simpl. rewrite app_nil_r.
  destruct (decide (atLeastOneSetImpliedInOther _ _ = Implied)) as [Hi|Hi].
  - rewrite decide_False by (intros Hn; by apply Hn).
    rewrite bool_decide_eq_false_2 by (intros Hn; by apply Hn).
    simpl. by rewrite andb_false_r, app_nil_r.
  - rewrite decide_True by done. rewrite bool_decide_eq_true_2 by done.
    simpl. rewrite andb_true_r. unfold upgradeDiagnostic, seeCallDiagnostic.
    unfold missingAtoms, displayRequired. simpl.
    destruct (optRestrictiveCapabilityCheck (m_optionSet ctx)); simpl;
      unfold set_status, set_sink; simpl; by rewrite <- app_assoc.
Qed.

Lemma visitEntryPoint_plan lateRequireCap entryPoint ctx :
  visitEntryPoint lateRequireCap entryPoint ctx =
  evs ← planEntryPoint (m_module ctx) (m_targetCaps ctx) lateRequireCap entryPoint;
  Ok (absorb evs ctx).
Proof.
  unfold visitEntryPoint, planEntryPoint.
  destruct (as_IRFunc (m_module ctx) entryPoint) as [f|]; [|done].
  destruct (findEntryPointDecoration f) as [d|]; simpl.
  - destruct (as_IRCapabilitySet _) as [c|]; [|done].
    by rewrite checkCapability_Some.
  - by rewrite absorb_nil.
Qed.

Lemma entryPointLoop_plan lateRequireCap entryPoints ctx :
  forEach (visitEntryPoint lateRequireCap) entryPoints ctx =
  evs ← collect (planEntryPoint (m_module ctx) (m_targetCaps ctx) lateRequireCap) entryPoints;
  Ok (absorb evs ctx).
Proof.
  apply (forEach_collect (visitEntryPoint lateRequireCap)
           (λ s, planEntryPoint (m_module s) (m_targetCaps s) lateRequireCap) absorb).
  - apply absorb_nil.
  - intros. apply absorb_app.
  - done.
  - intros. apply visitEntryPoint_plan.
Qed.

(** The checker is the only source of [EvChecked], the scan of [EvScanned]. *)
Lemma planEntryPoint_scanned m t lateRequireCap ep evs :
  planEntryPoint m t lateRequireCap ep = Ok evs → scannedOf evs = [].
Proof.
  unfold planEntryPoint. intros Hp.
  repeat case_match; simplify_eq; done.
Qed.

Lemma collect_scanned_nil {A} (f : A → Run (list Event)) xs evs :
  (∀ x ys, f x = Ok ys → scannedOf ys = []) →
  collect f xs = Ok evs → scannedOf evs = [].
Proof.
  intros Hf. revert evs. induction xs as [|x xs IH]; simpl; intros evs Hc.
  - by simplify_eq.
  - apply Run_bind_inv in Hc as (ys & Hy & Hc).
    apply Run_bind_inv in Hc as (zs & Hz & Hc). simplify_eq.
    rewrite scannedOf_app, (Hf _ _ Hy), (IH _ Hz). done.
Qed.

(** ** The scan of a function *)

Lemma record_event_scanned a c : record_event (EvScanned a) c = absorb [EvScanned a] c.
Proof.
  unfold record_event, absorb, statusAfter. simpl.
  by rewrite andb_false_r, app_nil_r.
Qed.

Lemma scanAct_nil st : scanAct [] st = st.
Proof. destruct st. unfold scanAct. simpl. by rewrite absorb_nil, app_nil_r. Qed.

Lemma scanAct_app evs evs' st : scanAct evs' (scanAct evs st) = scanAct (evs ++ evs') st.
Proof.
  unfold scanAct. simpl. by rewrite absorb_app, scannedOf_app, app_assoc.
Qed.

Lemma visitInst_plan func inst st :
  visitInst func inst st = evs ← scanPlan func st inst; Ok (scanAct evs st).
Proof.
  destruct st as [rem ctx]. unfold visitInst, scanPlan, planInst. simpl.
  destruct (as_IRLateRequireCapability inst) as [mk|]; simpl.
  - unfold planMarker, attributed.
    destruct (m_mapInstToReferencingEntryPoints ctx !! func) as [eps|]; simpl.
    + rewrite entryPointLoop_plan. simpl.
      destruct (collect _ eps) as [evs|] eqn:Hc; [|done]. simpl.
      unfold scanAct. simpl.
      rewrite (collect_scanned_nil _ _ _ (planEntryPoint_scanned _ _ _) Hc).
      do 2 f_equal.
      by rewrite record_event_scanned, absorb_app.
    + unfold scanAct. simpl. by rewrite record_event_scanned.
  - by rewrite scanAct_nil.
Qed.

Lemma scan_plan func blocks st :
  forEach (visitBlock func) blocks st =
  evs ← collect (λ b, collect (scanPlan func st) (getOrdinaryInsts b)) blocks;
  Ok (scanAct evs st).
Proof.
  apply (forEach_collect (visitBlock func)
           (λ s b, collect (scanPlan func s) (getOrdinaryInsts b)) scanAct).
  - apply scanAct_nil.
  - intros. apply scanAct_app.
  - done.
  - intros b s. unfold visitBlock.
    apply (forEach_collect (visitInst func) (scanPlan func) scanAct).
    + apply scanAct_nil.
    + intros. apply scanAct_app.
    + done.
    + intros. apply visitInst_plan.
Qed.

Lemma scan_planFunc func f ctx :
  forEach (visitBlock func) (getBlocks f) ([], ctx) =
  evs ← planFunc (m_module ctx) (m_targetCaps ctx)
          (m_mapInstToReferencingEntryPoints ctx) func f;
  Ok (scanAct evs ([], ctx)).
Proof. rewrite scan_plan. reflexivity. Qed.

(** The markers the scan meets are the markers of the function. *)
Lemma planInst_scanned m t g func inst evs :
  planInst m t g func inst = Ok evs →
  scannedOf evs = lateRequireCap_addr <$> option_list (as_IRLateRequireCapability inst).
Proof.
  unfold planInst, planMarker.
  destruct (as_IRLateRequireCapability inst) as [mk|]; simpl; intros Hp.
  - apply Run_bind_inv in Hp as (ys & Hy & Hp). simplify_eq. simpl.
    by rewrite (collect_scanned_nil _ _ _ (planEntryPoint_scanned _ _ _) Hy).
  - by simplify_eq.
Qed.

Lemma planInsts_scanned m t g func insts evs :
  collect (planInst m t g func) insts = Ok evs →
  scannedOf evs = lateRequireCap_addr <$> omap as_IRLateRequireCapability insts.
Proof.
  revert evs. induction insts as [|i insts IH]; simpl; intros evs Hc.
  - by simplify_eq.
  - apply Run_bind_inv in Hc as (ys & Hy & Hc).
    apply Run_bind_inv in Hc as (zs & Hz & Hc). simplify_eq.
    rewrite scannedOf_app, (planInst_scanned _ _ _ _ _ _ Hy), (IH _ Hz).
    by destruct (as_IRLateRequireCapability i).
Qed.

Lemma planFunc_scanned m t g func f evs :
  planFunc m t g func f = Ok evs →
  scannedOf evs = lateRequireCap_addr <$> markersOf f.
Proof.
  unfold planFunc, markersOf. revert evs.
  induction (getBlocks f) as [|b bs IH]; simpl; intros evs Hc.
  - by simplify_eq.
  - apply Run_bind_inv in Hc as (ys & Hy & Hc).
    apply Run_bind_inv in Hc as (zs & Hz & Hc). simplify_eq.
    by rewrite scannedOf_app, fmap_app, (planInsts_scanned _ _ _ _ _ _ Hy), (IH _ Hz).
Qed.

(** ** The removal loop *)

Lemma removalLoop_unlinkAll func rem ctx :
  foldl (λ ctx a, removeAndDeallocate func a ctx) ctx rem =
  set_module
    (mkModule (moduleChildren (m_module ctx))
       (alter (unlinkAll rem) func (moduleFuncs (m_module ctx)))) ctx.
Proof.
  revert ctx. induction rem as [|a rem IH]; intros ctx; simpl.
  - destruct ctx as [[ch fs] ? ? ? ? ? ? ?]. unfold set_module, unlinkAll. simpl.
    by rewrite alter_id.
  - rewrite IH. unfold removeAndDeallocate, set_module. simpl.
    by rewrite alter_alter_eq.
Qed.

(** ** [processFunc] *)

Lemma processFunc_plan func ctx :
  processFunc func ctx =
  match as_IRFunc (m_module ctx) func with
  | None => Crashed DanglingFunction
  | Some f =>
      evs ← planFunc (m_module ctx) (m_targetCaps ctx)
               (m_mapInstToReferencingEntryPoints ctx) func f;
      Ok (set_module (stripAt func (m_module ctx)) (absorb evs ctx))
  end.
Proof.
  unfold processFunc.
  destruct (as_IRFunc (m_module ctx) func) as [f|] eqn:Hf; [|done].
  rewrite scan_planFunc.
  destruct (planFunc _ _ _ func f) as [evs|] eqn:Hp; [|done]. simpl.
  rewrite removalLoop_unlinkAll. simpl.
  rewrite (planFunc_scanned _ _ _ _ _ _ Hp).
  unfold stripAt. do 3 f_equal.
  apply alter_ext. intros f' Hf'. unfold as_IRFunc in Hf. by simplify_eq.
Qed.

(** ** What removal leaves of a function *)

Lemma markersOf_removeInst a f mk :
  mk ∈ markersOf (removeInst a f) ↔ mk ∈ markersOf f ∧ lateRequireCap_addr mk ≠ a.
Proof.
  unfold markersOf, removeInst. simpl.
  rewrite !list_elem_of_bind. split.
  - intros (b & Hmk & Hb). apply list_elem_of_fmap in Hb as (b0 & -> & Hb0).
    simpl in Hmk. apply list_elem_of_omap in Hmk as (i & Hi & Hcast).
    apply list_elem_of_filter in Hi as [Hne Hi].
    destruct i as [mk'|]; simplify_eq/=. split; [|done].
    exists b0. split; [|done]. apply list_elem_of_omap. by exists (InstLateRequireCapability mk).
  - intros [(b & Hmk & Hb) Hne].
    exists (mkBlock (filter (λ i, inst_addr i ≠ a) (getOrdinaryInsts b))). split.
    + simpl. apply list_elem_of_omap in Hmk as (i & Hi & Hcast).
      apply list_elem_of_omap. exists i. split; [|done].
      apply list_elem_of_filter. split; [|done].
      destruct i; by simplify_eq/=.
    + apply list_elem_of_fmap. by exists b.
Qed.

Lemma markersOf_unlinkAll rem f mk :
  mk ∈ markersOf (unlinkAll rem f) ↔ mk ∈ markersOf f ∧ lateRequireCap_addr mk ∉ rem.
Proof.
  revert f. induction rem as [|a rem IH]; intros f; simpl.
  - rewrite elem_of_nil. tauto.
  - unfold unlinkAll in *. simpl. rewrite IH, markersOf_removeInst, not_elem_of_cons.
    tauto.
Qed.

Lemma markersOf_stripFunc f : markersOf (stripFunc f) = [].
Proof.
  destruct (markersOf (stripFunc f)) as [|mk l] eqn:Hm; [done|].
  assert (mk ∈ markersOf (stripFunc f)) as Hin by (rewrite Hm; left).
  apply markersOf_unlinkAll in Hin as [Hin Hnot].
  destruct Hnot. apply list_elem_of_fmap. by exists mk.
Qed.

Lemma stripFunc_no_markers f : markersOf f = [] → stripFunc f = f.
Proof. unfold stripFunc. by intros ->. Qed.

Lemma stripFunc_idemp f : stripFunc (stripFunc f) = stripFunc f.
Proof. apply stripFunc_no_markers, markersOf_stripFunc. Qed.

Lemma decoration_unlinkAll rem f :
  findEntryPointDecoration (unlinkAll rem f) = findEntryPointDecoration f.
Proof.
  revert f. induction rem as [|a rem IH]; intros f; [done|].
  unfold unlinkAll in *. simpl. by rewrite IH.
Qed.

Lemma decoration_stripFunc f :
  findEntryPointDecoration (stripFunc f) = findEntryPointDecoration f.
Proof. apply decoration_unlinkAll. Qed.

Lemma as_IRFunc_stripAt a m b :
  as_IRFunc (stripAt a m) b =
  if decide (b = a) then stripFunc <$> as_IRFunc m b else as_IRFunc m b.
Proof.
  unfold as_IRFunc, stripAt. simpl. rewrite lookup_alter.
  repeat case_decide; by simplify_eq.
Qed.

(** ** The loop over the global instructions *)

Lemma set_module_absorb m evs c :
  set_module m (absorb evs c) = absorb evs (set_module m c).
Proof. reflexivity. Qed.

Lemma set_module_id c : set_module (m_module c) c = c.
Proof. by destruct c. Qed.

Lemma visitGlobal_plan inst ctx :
  visitGlobal inst ctx =
  match as_IRFunc (m_module ctx) inst with
  | None => Ok ctx
  | Some f =>
      evs ← planFunc (m_module ctx) (m_targetCaps ctx)
               (m_mapInstToReferencingEntryPoints ctx) inst f;
      Ok (set_module (stripAt inst (m_module ctx)) (absorb evs ctx))
  end.
Proof.
  unfold visitGlobal. rewrite processFunc_plan.
  by destruct (as_IRFunc (m_module ctx) inst).
Qed.

Lemma globalsLoop_plan l ctx :
  forEach visitGlobal l ctx =
  r ← planGlobals (m_targetCaps ctx) (m_mapInstToReferencingEntryPoints ctx) l (m_module ctx);
  Ok (set_module r.2 (absorb r.1 ctx)).
Proof.
  revert ctx. induction l as [|a l IH]; intros ctx; cbn [forEach planGlobals].
  - simpl. by rewrite absorb_nil, set_module_id.
  - rewrite visitGlobal_plan.
    destruct (as_IRFunc (m_module ctx) a) as [f|] eqn:Hf.
    + destruct (planFunc _ _ _ a f) as [evs|]; [|done]. simpl.
      rewrite IH. simpl.
      destruct (planGlobals _ _ l _) as [[evs' m']|]; [|done]. simpl.
      by rewrite <- set_module_absorb, absorb_app.
    + apply IH.
Qed.

Lemma processModule_plan build ctx :
  processModule build ctx =
  r ← planGlobals (m_targetCaps ctx) (build (m_module ctx))
        (moduleChildren (m_module ctx)) (m_module ctx);
  Ok (set_module r.2 (absorb r.1 (set_map (build (m_module ctx)) ctx))).
Proof. unfold processModule. by rewrite globalsLoop_plan. Qed.

(** The module the loop leaves: the functions among the visited children
    have lost their markers, and nothing else has changed. *)
Lemma moduleChildren_stripAll l m : moduleChildren (stripAll l m) = moduleChildren m.
Proof.
  revert m. induction l as [|a l IH]; intros m; [done|].
  unfold stripAll in *. simpl. by rewrite IH.
Qed.

Lemma as_IRFunc_stripAll l m b :
  as_IRFunc (stripAll l m) b =
  if decide (b ∈ l) then stripFunc <$> as_IRFunc m b else as_IRFunc m b.
Proof.
  revert m. induction l as [|a l IH]; intros m.
  - by rewrite decide_False by apply not_elem_of_nil.
  - change (stripAll (a :: l) m) with (stripAll l (stripAt a m)).
    rewrite IH, as_IRFunc_stripAt.
    destruct (decide (b = a)) as [->|Hne].
    + rewrite (decide_True (P := a ∈ a :: l)) by left.
      destruct (decide (a ∈ l)); [|done].
      destruct (as_IRFunc m a); simpl; by rewrite ?stripFunc_idemp.
    + destruct (decide (b ∈ l)).
      * by rewrite decide_True by by right.
      * rewrite decide_False; [done|]. rewrite elem_of_cons. tauto.
Qed.

Lemma stripAt_not_func a m : as_IRFunc m a = None → stripAt a m = m.
Proof.
  destruct m as [ch fs]. unfold as_IRFunc, stripAt. simpl. intros Hn.
  by rewrite alter_id'.
Qed.

Lemma planGlobals_stripAll t g l m evs m' :
  planGlobals t g l m = Ok (evs, m') → m' = stripAll l m.
Proof.
  revert m evs. induction l as [|a l IH]; intros m evs Hp; simpl in Hp.
  - by simplify_eq.
  - change (stripAll (a :: l) m) with (stripAll l (stripAt a m)).
    destruct (as_IRFunc m a) as [f|] eqn:Hf.
    + apply Run_bind_inv in Hp as (ys & Hy & Hp).
      apply Run_bind_inv in Hp as ([zs m1] & Hz & Hp). simplify_eq/=.
      by apply IH in Hz.
    + rewrite (stripAt_not_func _ _ Hf). by apply IH in Hp.
Qed.

(** Removal does not change what the checker reads of the module: the
    entry-point decorations. *)
Lemma planEntryPoint_stripAt a m t mk ep :
  planEntryPoint (stripAt a m) t mk ep = planEntryPoint m t mk ep.
Proof.
  unfold planEntryPoint. rewrite as_IRFunc_stripAt.
  case_decide; [|done].
  destruct (as_IRFunc m ep) as [f|]; simpl; [|done].
  by rewrite decoration_stripFunc.
Qed.

Lemma planFunc_stripAt a m t g func f :
  planFunc (stripAt a m) t g func f = planFunc m t g func f.
Proof.
  unfold planFunc. apply collect_ext_in. intros b _.
  apply collect_ext_in. intros i _.
  unfold planInst. destruct (as_IRLateRequireCapability i) as [mk|]; [|done].
  unfold planMarker. f_equal.
  apply collect_ext_in. intros ep _. apply planEntryPoint_stripAt.
Qed.

Lemma planChild_stripAt a m t g b :
  b ≠ a → planChild (stripAt a m) t g b = planChild m t g b.
Proof.
  intros Hne. unfold planChild. rewrite as_IRFunc_stripAt, decide_False by done.
  destruct (as_IRFunc m b); [|done]. apply planFunc_stripAt.
Qed.

(** When no child is visited twice, every function is scanned as the module
    had it before the run. *)
Lemma planGlobals_collect t g l m :
  NoDup l →
  planGlobals t g l m = evs ← collect (planChild m t g) l; Ok (evs, stripAll l m).
Proof.
  revert m. induction l as [|a l IH]; intros m Hnd; [done|].
  apply NoDup_cons in Hnd as [Hnotin Hnd].
  cbn [planGlobals collect].
  change (stripAll (a :: l) m) with (stripAll l (stripAt a m)).
  assert (collect (planChild (stripAt a m) t g) l = collect (planChild m t g) l) as Hsame.
  { apply collect_ext_in. intros b Hb. apply planChild_stripAt. by intros ->. }
  destruct (as_IRFunc m a) as [f|] eqn:Hf.
  - replace (planChild m t g a) with (planFunc m t g a f)
      by (unfold planChild; by rewrite Hf).
    destruct (planFunc m t g a f) as [ys|]; [|done]. simpl.
    rewrite IH, Hsame by done.
    by destruct (collect (planChild m t g) l).
  - replace (planChild m t g a) with (Ok (A := list Event) [])
      by (unfold planChild; by rewrite Hf).
    simpl. rewrite IH by done. rewrite (stripAt_not_func _ _ Hf).
    by destruct (collect (planChild m t g) l).
Qed.

(** ** Runs that do not crash *)

Lemma planEntryPoint_events m t mk ep :
  is_Some (as_IRFunc m ep) →
  (is_Some (as_IRFunc m ep ≫= findEntryPointDecoration) →
   is_Some (as_IRCapabilitySet (getCapabilitySet mk))) →
  planEntryPoint m t mk ep = Ok (eventsOfEntryPoint m t mk ep).
Proof.
  unfold planEntryPoint, eventsOfEntryPoint. intros [f ->] Hop. simpl in *.
  destruct (findEntryPointDecoration f) as [d|]; [|done].
  destruct Hop as [c ->]; done.
Qed.

Lemma planMarker_events m t g func mk :
  markerSafe m g func mk →
  planMarker m t g func mk = Ok (eventsOfMarker m t g func mk).
Proof.
  intros Hsafe. unfold planMarker, eventsOfMarker.
  rewrite (collect_Ok _ (eventsOfEntryPoint m t mk)); [done|].
  intros ep Hep. destruct (Hsafe ep Hep). by apply planEntryPoint_events.
Qed.

Lemma planFunc_events m t g func f :
  (∀ mk, mk ∈ markersOf f → markerSafe m g func mk) →
  planFunc m t g func f = Ok (markersOf f ≫= eventsOfMarker m t g func).
Proof.
  intros Hsafe. unfold planFunc, markersOf.
  rewrite list_bind_bind.
  apply collect_Ok. intros b Hb.
  rewrite omap_bind.
  apply collect_Ok. intros i Hi.
  unfold planInst. destruct (as_IRLateRequireCapability i) as [mk|] eqn:Hcast; [|done].
  apply planMarker_events. apply Hsafe.
  apply list_elem_of_bind. exists b. split; [|done].
  apply list_elem_of_omap. by exists i.
Qed.

Lemma elem_of_moduleMarkers m a f mk :
  a ∈ moduleChildren m → as_IRFunc m a = Some f → mk ∈ markersOf f →
  (a, mk) ∈ moduleMarkers m.
Proof.
  intros Ha Hf Hmk. unfold moduleMarkers, moduleFunctions.
  apply list_elem_of_bind. exists (a, f). split.
  - apply list_elem_of_fmap. by exists mk.
  - apply list_elem_of_omap. exists a. by rewrite Hf.
Qed.

Lemma eventsOfModule_children m t g :
  eventsOfModule m t g =
  a ← moduleChildren m;
  match as_IRFunc m a with
  | Some f => markersOf f ≫= eventsOfMarker m t g a
  | None => []
  end.
Proof.
  unfold eventsOfModule, moduleMarkers, moduleFunctions.
  rewrite list_bind_bind, omap_bind.
  apply list_bind_ext_in. intros a _.
  destruct (as_IRFunc m a) as [f|]; simpl; [|done].
  induction (markersOf f) as [|mk l IH]; [done|].
  csimpl. by rewrite IH.
Qed.

Lemma planChildren_events m t g :
  wellFormed m g →
  collect (planChild m t g) (moduleChildren m) = Ok (eventsOfModule m t g).
Proof.
  intros [Hnd Heps Hops]. rewrite eventsOfModule_children.
  apply collect_Ok. intros a Ha. unfold planChild.
  destruct (as_IRFunc m a) as [f|] eqn:Hf; [|done].
  apply planFunc_events.
  intros mk Hmk ep Hep. split; [by apply (Heps a)|]. intros _.
  apply (Hops a). by apply elem_of_moduleMarkers with f.
Qed.

(** The whole pass on a well-formed module: it does not crash, the module
    loses the markers of its functions, and the rest of the context is the
    initial one after the events of the module. *)
Lemma runPass_wellFormed build m cg sink :
  wellFormed m (build m) →
  runPass build m cg sink =
  Ok (set_module (stripAll (moduleChildren m) m)
        (absorb (eventsOfModule m (getTargetCaps cg) (build m))
           (set_map (build m)
              (newContext m (getTargetCaps cg) (getTargetFormat cg)
                 (getOptionSet cg) sink)))).
Proof.
  intros Hwf. unfold runPass. rewrite processModule_plan. simpl.
  rewrite planGlobals_collect by apply Hwf.
  by rewrite planChildren_events.
Qed.

(** ** Runs over functions without markers or without entry points *)

Lemma stripAt_no_markers a m f :
  as_IRFunc m a = Some f → markersOf f = [] → stripAt a m = m.
Proof.
  destruct m as [ch fs]. unfold as_IRFunc, stripAt. simpl. intros Hf Hm.
  rewrite alter_id; [done|]. intros f' Hf'. simplify_eq.
  by apply stripFunc_no_markers.
Qed.

Lemma planGlobals_no_markers t g l m :
  (∀ a f, a ∈ l → as_IRFunc m a = Some f → markersOf f = []) →
  planGlobals t g l m = Ok ([], m).
Proof.
  induction l as [|a l IH]; intros Hno; [done|]. cbn [planGlobals].
  assert (planGlobals t g l m = Ok ([], m)) as Hrest.
  { apply IH. intros b f Hb. apply Hno. by right. }
  destruct (as_IRFunc m a) as [f|] eqn:Hf; [|done].
  assert (markersOf f = []) as Hm by (apply (Hno a); [left|done]).
  rewrite planFunc_events by (intros mk; rewrite Hm; by intros ?%elem_of_nil).
  rewrite Hm, (stripAt_no_markers _ _ _ Hf Hm), Hrest. done.
Qed.

Lemma moduleMarkers_nil m a f :
  moduleMarkers m = [] → a ∈ moduleChildren m → as_IRFunc m a = Some f →
  markersOf f = [].
Proof.
  intros Hnil Ha Hf. apply elem_of_nil_inv. intros mk Hmk.
  apply (elem_of_moduleMarkers _ _ _ _ Ha Hf) in Hmk.
  rewrite Hnil in Hmk. by apply elem_of_nil in Hmk.
Qed.


End Theory.

(** ** Reading the events of a module *)

Section Events.
Context {caps : CapabilityAlgebra}.

Lemma wellFormedb_sound m g : wellFormedb m g = true → wellFormed m g.
Proof.
  unfold wellFormedb. rewrite !andb_true_iff, !bool_decide_eq_true, forallb_forall.
  intros [[Hnd Heps] Hops]. split; [done| |].
  - intros func ep. unfold attributed.
    destruct (g !! func) as [eps|] eqn:Hg; simpl; [|by intros ?%elem_of_nil].
    intros Hep. specialize (Heps _ _ Hg). simpl in Heps.
    by apply (proj1 (Forall_forall _ _) Heps).
  - intros func mk Hin. apply list_elem_of_In in Hin.
    specialize (Hops _ Hin). by apply bool_decide_eq_true in Hops.
Qed.

Lemma existsb_isDeficiency evs :
  existsb isDeficiency evs = true ↔ ∃ i, i ∈ invocationsOf evs ∧ deficient i.
Proof.
  unfold invocationsOf. rewrite existsb_exists. split.
  - intros (e & Hin & He). destruct e as [a|i]; [done|].
    apply bool_decide_eq_true in He. exists i. split; [|done].
    apply list_elem_of_omap. exists (EvChecked i). by rewrite list_elem_of_In.
  - intros (i & Hin & Hd). apply list_elem_of_omap in Hin as (e & Hin & He).
    destruct e as [a|i']; simplify_eq. exists (EvChecked i).
    rewrite <- list_elem_of_In. split; [done|]. by apply bool_decide_eq_true.
Qed.



Lemma invocationsOf_bind {A} (f : A → list Event) (l : list A) :
  invocationsOf (l ≫= f) = l ≫= (λ x, invocationsOf (f x)).
Proof.
  induction l as [|x l IH]; [done|]. csimpl. by rewrite invocationsOf_app, IH.
Qed.

Lemma scannedOf_bind {A} (f : A → list Event) (l : list A) :
  scannedOf (l ≫= f) = l ≫= (λ x, scannedOf (f x)).
Proof.
  induction l as [|x l IH]; [done|]. csimpl. by rewrite scannedOf_app, IH.
Qed.

Lemma scannedOf_eventsOfEntryPoint m t mk ep : scannedOf (eventsOfEntryPoint m t mk ep) = [].
Proof. unfold eventsOfEntryPoint. by repeat case_match. Qed.

Lemma scannedOf_eventsOfMarker m t g func mk :
  scannedOf (eventsOfMarker m t g func mk) = [lateRequireCap_addr mk].
Proof.
  unfold eventsOfMarker. change (scannedOf (EvScanned ?a :: ?l)) with (a :: scannedOf l).
  rewrite scannedOf_bind. f_equal.
  induction (attributed g func) as [|ep eps IH]; [done|].
  by rewrite bind_cons, scannedOf_eventsOfEntryPoint, IH.
Qed.

(** The scan meets every marker of the module once, in module order. *)
Lemma scannedOf_eventsOfModule m t g :
  scannedOf (eventsOfModule m t g) = (λ x, lateRequireCap_addr x.2) <$> moduleMarkers m.
Proof.
  unfold eventsOfModule. rewrite scannedOf_bind.
  induction (moduleMarkers m) as [|[func mk] l IH]; [done|].
  rewrite bind_cons, fmap_cons, IH. cbn beta iota.
  by rewrite scannedOf_eventsOfMarker.
Qed.

Lemma invocationsOf_eventsOfMarker m t g func mk :
  invocationsOf (eventsOfMarker m t g func mk) =
  invocationsOf (attributed g func ≫= eventsOfEntryPoint m t mk).
Proof. reflexivity. Qed.

(** With a capability-set operand, the checker is called once for each
    attributed entry point that carries the decoration, in order. *)
Lemma invocations_entries m t mk c eps :
  as_IRCapabilitySet (getCapabilitySet mk) = Some c →
  inv_entry <$> invocationsOf (eps ≫= eventsOfEntryPoint m t mk) =
  filter (λ ep, is_Some (as_IRFunc m ep ≫= findEntryPointDecoration)) eps.
Proof.
  intros Hc. induction eps as [|ep eps IH]; [done|].
  csimpl. rewrite invocationsOf_app, fmap_app, IH.
  unfold eventsOfEntryPoint at 1. rewrite Hc.
  destruct (as_IRFunc m ep ≫= findEntryPointDecoration) as [d|] eqn:Hd.
  - rewrite filter_cons_True by (rewrite Hd; eauto). done.
  - rewrite filter_cons_False by (rewrite Hd; by intros [? ?]). done.
Qed.

Lemma invocations_targetCaps m t g :
  Forall (λ i, inv_targetCaps i =
               CapabilitySet_join t (CapabilitySet_ofName (getCapabilityName (inv_profile i))))
    (invocationsOf (eventsOfModule m t g)).
Proof.
  apply Forall_forall. intros i Hi.
  unfold eventsOfModule in Hi. rewrite invocationsOf_bind in Hi.
  apply list_elem_of_bind in Hi as ([func mk] & Hi & _).
  rewrite invocationsOf_eventsOfMarker, invocationsOf_bind in Hi.
  apply list_elem_of_bind in Hi as (ep & Hi & _).
  unfold eventsOfEntryPoint in Hi.
  repeat case_match; simpl in Hi; try by apply elem_of_nil in Hi.
  apply list_elem_of_singleton in Hi. by subst.
Qed.

Lemma invocations_count m t g :
  (∀ func mk, (func, mk) ∈ moduleMarkers m →
     is_Some (as_IRCapabilitySet (getCapabilitySet mk))) →
  length (invocationsOf (eventsOfModule m t g)) = decoratedTotal m g.
Proof.
  unfold eventsOfModule, decoratedTotal. rewrite invocationsOf_bind.
  induction (moduleMarkers m) as [|[func mk] l IH]; intros Hops; [done|].
  rewrite bind_cons, length_app, IH by (intros f' mk' Hin'; apply (Hops f'); by right).
  cbn [sum_list_with]. f_equal. cbn beta iota.
  destruct (Hops func mk) as [c Hc]; [left|].
  rewrite invocationsOf_eventsOfMarker.
  rewrite <- (length_fmap inv_entry), (invocations_entries _ _ _ _ _ Hc). done.
Qed.

(** After the loop over its children no function of the module has a
    marker. *)
Lemma moduleMarkers_stripAll m : moduleMarkers (stripAll (moduleChildren m) m) = [].
Proof.
  apply elem_of_nil_inv. intros [func mk] Hin.
  unfold moduleMarkers, moduleFunctions in Hin.
  apply list_elem_of_bind in Hin as ([a f] & Hin & Hf).
  apply list_elem_of_fmap in Hin as (mk' & Heq & Hin). simplify_eq.
  apply list_elem_of_omap in Hf as (a' & Ha & Hf).
  rewrite moduleChildren_stripAll in Ha.
  rewrite as_IRFunc_stripAll, decide_True in Hf by done.
  destruct (as_IRFunc m a') as [f0|]; simplify_eq/=.
  rewrite markersOf_stripFunc in Hin. by apply elem_of_nil in Hin.
Qed.

(** The list the diagnostic carries holds the members of the set, once each
    and in ascending order. *)
Lemma getElements_members (s : gset N) a : a ∈ getElements s ↔ a ∈ s.
Proof. unfold getElements. rewrite merge_sort_Permutation. apply elem_of_elements. Qed.

Lemma getElements_NoDup (s : gset N) : NoDup (getElements s).
Proof. unfold getElements. rewrite merge_sort_Permutation. apply NoDup_elements. Qed.

Lemma getElements_sorted (s : gset N) : StronglySorted N.le (getElements s).
Proof. unfold getElements. apply StronglySorted_merge_sort; apply _. Qed.

Lemma getElements_empty : getElements ∅ = [].
Proof. unfold getElements. by rewrite elements_empty. Qed.

Lemma elem_of_heapMarkers m a mk :
  (a, mk) ∈ heapMarkers m ↔ ∃ f, as_IRFunc m a = Some f ∧ mk ∈ markersOf f.
Proof.
  unfold heapMarkers, as_IRFunc. rewrite list_elem_of_bind. split.
  - intros ([a' f] & Hin & Hf). apply elem_of_map_to_list in Hf.
    apply list_elem_of_fmap in Hin as (mk' & Heq & Hin). simplify_eq/=. eauto.
  - intros (f & Hf & Hmk). exists (a, f). split.
    + apply list_elem_of_fmap. by exists mk.
    + by apply elem_of_map_to_list.
Qed.

(** A graph of entry points attributes live functions, all of them with the
    decoration. *)
Lemma entryPointGraph_decorated m g func ep :
  entryPointGraph m g → ep ∈ attributed g func →
  is_Some (as_IRFunc m ep ≫= findEntryPointDecoration).
Proof.
  unfold entryPointGraph, attributed. intros Hg.
  destruct (g !! func) as [eps|] eqn:Hfunc; simpl; [|by intros ?%elem_of_nil].
  intros Hep. specialize (Hg _ _ Hfunc). simpl in Hg.
  by apply (proj1 (Forall_forall _ _) Hg).
Qed.

Lemma entryPointGraph_totals m g :
  entryPointGraph m g → decoratedTotal m g = attributedTotal m g.
Proof.
  intros Hg. unfold decoratedTotal, attributedTotal.
  induction (moduleMarkers m) as [|[func mk] l IH]; [done|].
  cbn [sum_list_with]. rewrite IH. f_equal. simpl. f_equal.
  unfold decoratedEntryPoints. apply filter_all.
  intros ep Hep. by apply (entryPointGraph_decorated m g func).
Qed.

End Events.

(** * The claims *)

Section Claims.
Context {caps : CapabilityAlgebra}.

(** ** The checker *)

(** C3. Whenever the checker is called for an entry point, a profile and a
    required capability set, and the target capabilities of the context
    joined with the stage capabilities of the profile imply one of the
    alternatives of the required set, the checker returns at once: nothing is
    written to the sink, the status keeps its value, and the module, the
    target capabilities, the options and the reference map are untouched. *)
Theorem implied_requirement_takes_no_action entry profile capSet ctx :
  atLeastOneSetImpliedInOther
    (CapabilitySet_join (m_targetCaps ctx)
       (CapabilitySet_ofName (getCapabilityName profile)))
    (getCaps capSet) = Implied →
  ∃ ctx', checkCapability entry profile (Some capSet) ctx = Ok ctx' ∧
    m_sink ctx' = m_sink ctx ∧
    m_status ctx' = m_status ctx ∧
    m_module ctx' = m_module ctx ∧
    m_targetCaps ctx' = m_targetCaps ctx ∧
    m_optionSet ctx' = m_optionSet ctx ∧
    m_mapInstToReferencingEntryPoints ctx' = m_mapInstToReferencingEntryPoints ctx.
Proof.
  intros Himplied. unfold checkCapability.
  rewrite decide_True by done. eexists. split; [reflexivity|]. done.
Qed.

(** C7. Whenever the checker finds that the effective target does not imply
    the required set, the list of atoms in the diagnostic it writes at the
    entry point holds, once each and in ascending order, exactly the atoms of
    the first atom set of the required set, after the stage capabilities were
    joined into it, that are absent from the first atom set of the effective
    target.  (When one of the two sets has no atom set at all, the list is
    empty.) *)
Theorem missing_atoms_are_primary_difference entry profile capSet ctx :
  let stage := CapabilitySet_ofName (getCapabilityName profile) in
  let effectiveTarget := CapabilitySet_join (m_targetCaps ctx) stage in
  let displayRequired := CapabilitySet_join (getCaps capSet) stage in
  atLeastOneSetImpliedInOther effectiveTarget (getCaps capSet) ≠ Implied →
  ∃ ctx' reported,
    checkCapability entry profile (Some capSet) ctx = Ok ctx' ∧
    m_sink ctx' =
      m_sink ctx ++
      [mkDiagnostic (PosOfInst entry)
         (if getBoolOption (m_optionSet ctx) RestrictiveCapabilityCheck
          then profileImplicitlyUpgradedRestrictive else profileImplicitlyUpgraded)
         [ArgInst entry; ArgString (optProfileName (m_optionSet ctx));
          ArgAtoms reported];
       mkDiagnostic (PosLoc (capSet_sourceLoc capSet)) seeCallOfFunc
         [ArgString "__requireCapability()"]] ∧
    NoDup reported ∧
    StronglySorted N.le reported ∧
    (∀ requiredSet stageCapSet,
       head (getAtomSets displayRequired) = Some requiredSet →
       head (getAtomSets effectiveTarget) = Some stageCapSet →
       reported = getElements (requiredSet ∖ stageCapSet) ∧
       ∀ a, a ∈ reported ↔ a ∈ requiredSet ∧ a ∉ stageCapSet) ∧
    (head (getAtomSets displayRequired) = None ∨
     head (getAtomSets effectiveTarget) = None → reported = []).
Proof.
  intros stage effectiveTarget displayRequired Hnot.
  exists (absorb [EvChecked (mkInvocation entry profile capSet effectiveTarget)] ctx),
         (getElements (addedAtoms effectiveTarget displayRequired)).
  split; [apply checkCapability_Some|]. split.
  { unfold absorb. simpl. rewrite decide_True by done. by rewrite app_nil_r. }
  split; [apply getElements_NoDup|]. split; [apply getElements_sorted|].
  unfold addedAtoms. split.
  - intros requiredSet stageCapSet -> ->. split; [done|].
    intros a. rewrite getElements_members. unfold calcSubtract.
    apply elem_of_difference.
  - intros [-> | ->].
    + destruct (head (getAtomSets effectiveTarget)); apply getElements_empty.
    + apply getElements_empty.
Qed.

(** C9. The cast of the marker's operand to a capability-set instruction is
    handed to the checker unchecked, and the checker dereferences it first
    thing: called with the null pointer it crashes, called with a capability
    set it returns.  So for a marker that reaches the checker (some
    attributed entry point carries the decoration), the loop over the entry
    points completes when the operand is a capability-set instruction, and
    crashes on the null pointer when it is not. *)
Theorem capability_operand_cast_unchecked lateRequireCap entryPoints ctx :
  Forall (λ ep, is_Some (as_IRFunc (m_module ctx) ep)) entryPoints →
  Exists (λ ep, is_Some (as_IRFunc (m_module ctx) ep ≫= findEntryPointDecoration))
    entryPoints →
  (∀ entry profile ctx0,
     checkCapability entry profile None ctx0 = Crashed NullCapabilitySet) ∧
  (∀ entry profile capSet ctx0,
     ∃ ctx1, checkCapability entry profile (Some capSet) ctx0 = Ok ctx1) ∧
  (is_Some (as_IRCapabilitySet (getCapabilitySet lateRequireCap)) →
   ∃ ctx', forEach (visitEntryPoint lateRequireCap) entryPoints ctx = Ok ctx') ∧
  (as_IRCapabilitySet (getCapabilitySet lateRequireCap) = None →
   forEach (visitEntryPoint lateRequireCap) entryPoints ctx = Crashed NullCapabilitySet).
Proof.
  rewrite Forall_forall, Exists_exists. intros Hlive (ep0 & Hep0 & Hdecor).
  split; [done|]. split; [intros; rewrite checkCapability_Some; eauto|].
  rewrite entryPointLoop_plan. split.
  - intros Hop.
    rewrite (collect_Ok _ (eventsOfEntryPoint (m_module ctx) (m_targetCaps ctx) lateRequireCap)).
    + simpl. eauto.
    + intros ep Hep. apply planEntryPoint_events; auto.
  - intros Hnull.
    assert (collect (planEntryPoint (m_module ctx) (m_targetCaps ctx) lateRequireCap)
              entryPoints = Crashed NullCapabilitySet) as ->; [|done].
    clear -Hlive Hep0 Hdecor Hnull.
    induction entryPoints as [|ep eps IH]; [by apply elem_of_nil in Hep0|].
    cbn [collect].
    destruct (Hlive ep) as [f Hf]; [left|].
    assert (planEntryPoint (m_module ctx) (m_targetCaps ctx) lateRequireCap ep =
            match findEntryPointDecoration f with
            | Some _ => Crashed NullCapabilitySet
            | None => Ok []
            end) as ->.
    { unfold planEntryPoint. rewrite Hf, Hnull. done. }
    destruct (findEntryPointDecoration f) as [d|] eqn:Hd; [done|].
    rewrite Run_bind_Ok, IH; [done| |].
    + intros ep' Hep'. apply Hlive. by right.
    + apply elem_of_cons in Hep0 as [->|Hin]; [|done].
      rewrite Hf in Hdecor. simpl in Hdecor. rewrite Hd in Hdecor.
      by destruct Hdecor.
Qed.


(** ** The pass *)

Lemma checkCapability_inv entry profile capSet ctx ctx' :
  checkCapability entry profile capSet ctx = Ok ctx' →
  ∃ c, capSet = Some c ∧
    ctx' = absorb
      [EvChecked
         (mkInvocation entry profile c
            (CapabilitySet_join (m_targetCaps ctx)
               (CapabilitySet_ofName (getCapabilityName profile))))] ctx.
Proof.
  destruct capSet as [c|]; [|done].
  rewrite checkCapability_Some. intros [= <-]. eauto.
Qed.

Lemma runPass_status build m cg sink ctx' :
  runPass build m cg sink = Ok ctx' →
  processLateRequireCapabilityInsts build m cg sink = Ok (m_status ctx').
Proof. unfold processLateRequireCapabilityInsts. by intros ->. Qed.

(** C1. The status fails only through a deficiency found in restrictive
    mode, and stays failed: a call of the checker either leaves the status
    as it was or sets it to failure, the latter only when the restrictive
    option is set and the effective target does not imply the required set;
    a failed status is still failed after any call.  A run never stops
    early: on a well-formed module it completes, its events are all the
    events of the module and it meets every marker of the module.  The value
    the pass returns is the success code if and only if the option is unset
    or no call of the run found a deficiency. *)
Theorem failure_status_sticky_and_restrictive_only build m cg sink :
  wellFormed m (build m) →
  (∀ entry profile capSet ctx ctx',
     checkCapability entry profile capSet ctx = Ok ctx' →
     (m_status ctx' = m_status ctx ∨
      m_status ctx' = SLANG_FAIL ∧
      getBoolOption (m_optionSet ctx) RestrictiveCapabilityCheck = true ∧
      ∃ c, capSet = Some c ∧
        atLeastOneSetImpliedInOther
          (CapabilitySet_join (m_targetCaps ctx)
             (CapabilitySet_ofName (getCapabilityName profile)))
          (getCaps c) ≠ Implied) ∧
     (m_status ctx = SLANG_FAIL → m_status ctx' = SLANG_FAIL)) ∧
  ∃ ctx',
    runPass build m cg sink = Ok ctx' ∧
    processLateRequireCapabilityInsts build m cg sink = Ok (m_status ctx') ∧
    ghost_trace ctx' = eventsOfModule m (getTargetCaps cg) (build m) ∧
    scannedOf (ghost_trace ctx') = (λ x, lateRequireCap_addr x.2) <$> moduleMarkers m ∧
    (m_status ctx' = SLANG_OK ∨ m_status ctx' = SLANG_FAIL) ∧
    (m_status ctx' = SLANG_OK ↔
     ¬ (getBoolOption (getOptionSet cg) RestrictiveCapabilityCheck = true ∧
        ∃ i, i ∈ invocationsOf (ghost_trace ctx') ∧ deficient i)) ∧
    (SLANG_SUCCEEDED (m_status ctx') = true ↔ m_status ctx' = SLANG_OK).
Proof.
  intros Hwf. split.
  - intros entry profile capSet ctx ctx' Hrun.
    apply checkCapability_inv in Hrun as (c & -> & ->).
    unfold absorb, statusAfter, isDeficiency, deficient. simpl.
    destruct (optRestrictiveCapabilityCheck (m_optionSet ctx)); simpl.
    + case_bool_decide as Hd; simpl.
      * split; [|done]. right. repeat split; eauto.
      * split; [by left|done].
    + split; [by left|done].
  - eexists. split; [by apply runPass_wellFormed|].
    split; [by apply runPass_status, runPass_wellFormed|].
    split; [done|]. split; [apply scannedOf_eventsOfModule|].
    simpl. unfold statusAfter.
    rewrite <- existsb_isDeficiency. simpl.
    destruct (optRestrictiveCapabilityCheck (getOptionSet cg)); simpl.
    + destruct (existsb isDeficiency _); simpl.
      * split; [by right|]. split; [split; [done|tauto]|done].
      * split; [by left|]. split; [|done]. split; [by intros _ [_ ?]|done].
    + split; [by left|]. split; [|done]. split; [by intros _ [? _]|done].
Qed.

(** C2, for the functions that are children of the module instruction.  On
    a well-formed module the run meets every marker of those functions
    exactly once, in module order, so no marker address is met twice when the
    markers are distinct instructions; after the run none of those functions
    has a marker, whatever the checks found, and the markers left in the heap
    are those of the functions that are not children of the module
    instruction, which the run neither meets nor removes.  Removal is per
    function: a completed [processFunc] has met all the markers of its
    function and only those, and returns with that function stripped of them
    and every other function as it was. *)
Theorem markers_consumed_exactly_once build m cg sink :
  wellFormed m (build m) →
  ∃ ctx',
    runPass build m cg sink = Ok ctx' ∧
    scannedOf (ghost_trace ctx') = (λ x, lateRequireCap_addr x.2) <$> moduleMarkers m ∧
    (NoDup ((λ x, lateRequireCap_addr x.2) <$> moduleMarkers m) →
     NoDup (scannedOf (ghost_trace ctx'))) ∧
    moduleMarkers (m_module ctx') = [] ∧
    moduleChildren (m_module ctx') = moduleChildren m ∧
    (∀ func f ctx ctx1,
       as_IRFunc (m_module ctx) func = Some f →
       processFunc func ctx = Ok ctx1 →
       scannedOf (ghost_trace ctx1) =
         scannedOf (ghost_trace ctx) ++ (lateRequireCap_addr <$> markersOf f) ∧
       as_IRFunc (m_module ctx1) func = Some (stripFunc f) ∧
       markersOf (stripFunc f) = [] ∧
       ∀ other, other ≠ func →
         as_IRFunc (m_module ctx1) other = as_IRFunc (m_module ctx) other) ∧
    (∀ a, a ∉ moduleChildren m → as_IRFunc (m_module ctx') a = as_IRFunc m a) ∧
    (∀ a lateRequireCap,
       ((a, lateRequireCap) ∈ heapMarkers (m_module ctx')) ↔
       ((a ∉ moduleChildren m) ∧ ((a, lateRequireCap) ∈ heapMarkers m))).
Proof.
  intros Hwf. eexists. split; [by apply runPass_wellFormed|]. simpl.
  rewrite scannedOf_eventsOfModule. split; [done|]. split; [done|].
  split; [apply moduleMarkers_stripAll|].
  split; [apply moduleChildren_stripAll|].
  split; [|split].
  - intros func f ctx ctx1 Hf Hrun. rewrite processFunc_plan, Hf in Hrun.
    apply Run_bind_inv in Hrun as (evs & Hevs & [= <-]). simpl.
    rewrite scannedOf_app, (planFunc_scanned _ _ _ _ _ _ Hevs).
    split; [done|]. rewrite as_IRFunc_stripAt, decide_True, Hf by done.
    split; [done|]. split; [apply markersOf_stripFunc|].
    intros other Hne. by rewrite as_IRFunc_stripAt, decide_False.
  - intros a Ha. by rewrite as_IRFunc_stripAll, decide_False.
  - intros a mk. rewrite !elem_of_heapMarkers. setoid_rewrite as_IRFunc_stripAll.
    destruct (decide (a ∈ moduleChildren m)) as [Ha|Ha].
    + split; [|by intros [? _]]. intros (f & Hf & Hmk).
      destruct (as_IRFunc m a) as [f0|]; simplify_eq/=.
      rewrite markersOf_stripFunc in Hmk. by apply elem_of_nil in Hmk.
    + split; [by intros ?|by intros [_ ?]].
Qed.


(** The calls of the checker, counted over the entry points that carry the
    decoration: on a well-formed module the run leaves no marker in the
    children of the module instruction, and the number of calls is the sum,
    over the markers of those functions, of the number of entry points
    attributed to the marker's function that carry the decoration. *)
Lemma checker_calls_count_decorated_entry_points build m cg sink :
  wellFormed m (build m) →
  ∃ ctx',
    runPass build m cg sink = Ok ctx' ∧
    moduleMarkers (m_module ctx') = [] ∧
    length (invocationsOf (ghost_trace ctx')) = decoratedTotal m (build m).
Proof.
  intros Hwf. eexists. split; [by apply runPass_wellFormed|]. simpl.
  split; [apply moduleMarkers_stripAll|].
  apply invocations_count, Hwf.
Qed.

(** C5, for the functions that are children of the module instruction.  On
    a well-formed module, with a reference graph that attributes entry
    points, the run leaves no marker in those functions, and the number of
    calls of the checker is the sum, over the markers of those functions, of
    the number of entry points attributed to the marker's function. *)
Theorem checker_calls_count_attributed_entry_points build m cg sink :
  wellFormed m (build m) →
  entryPointGraph m (build m) →
  ∃ ctx',
    runPass build m cg sink = Ok ctx' ∧
    moduleMarkers (m_module ctx') = [] ∧
    length (invocationsOf (ghost_trace ctx')) = attributedTotal m (build m).
Proof.
  intros Hwf Hgraph.
  destruct (checker_calls_count_decorated_entry_points build m cg sink Hwf)
    as (ctx' & Hrun & Hnone & Hcount).
  exists ctx'. split; [done|]. split; [done|].
  by rewrite Hcount, entryPointGraph_totals.
Qed.

(** C8. A module that a completed run of the pass has left holds no marker,
    and a further run on it, with any graph builder, code-generation context
    and sink, changes nothing: it returns the success code, the sink and the
    module are as they were, and no marker is met and no check made. *)
Theorem second_run_is_noop build m cg sink ctx1 build' cg' sink' :
  runPass build m cg sink = Ok ctx1 →
  moduleMarkers (m_module ctx1) = [] ∧
  ∃ ctx2,
    runPass build' (m_module ctx1) cg' sink' = Ok ctx2 ∧
    processLateRequireCapabilityInsts build' (m_module ctx1) cg' sink' = Ok SLANG_OK ∧
    m_sink ctx2 = sink' ∧
    m_status ctx2 = SLANG_OK ∧
    m_module ctx2 = m_module ctx1 ∧
    ghost_trace ctx2 = [].
Proof.
  intros Hrun.
  assert (moduleMarkers (m_module ctx1) = []) as Hnone.
  { unfold runPass in Hrun. rewrite processModule_plan in Hrun.
    apply Run_bind_inv in Hrun as ([evs m'] & Hplan & [= <-]).
    apply planGlobals_stripAll in Hplan as ->. simpl.
    apply moduleMarkers_stripAll. }
  split; [done|].
  assert (runPass build' (m_module ctx1) cg' sink' =
          Ok (set_map (build' (m_module ctx1))
                (newContext (m_module ctx1) (getTargetCaps cg') (getTargetFormat cg')
                   (getOptionSet cg') sink'))) as Hrun2.
  { unfold runPass. rewrite processModule_plan. simpl.
    rewrite planGlobals_no_markers; [|intros a f; by apply moduleMarkers_nil].
    simpl. by rewrite absorb_nil. }
  eexists. split; [exact Hrun2|].
  by rewrite (runPass_status _ _ _ _ _ Hrun2).
Qed.

(** C10. A call of the checker joins the stage capabilities into a local
    copy: the target capabilities of the context are the same after the call
    as before.  So in a run on a well-formed module the context ends with the
    target capabilities it was created with, and every check of the run, for
    whatever entry point and marker, was made against those target
    capabilities joined with the stage capabilities of its own profile. *)
Theorem target_baseline_is_never_altered build m cg sink :
  wellFormed m (build m) →
  (∀ entry profile capSet ctx ctx',
     checkCapability entry profile capSet ctx = Ok ctx' →
     m_targetCaps ctx' = m_targetCaps ctx) ∧
  ∃ ctx',
    runPass build m cg sink = Ok ctx' ∧
    m_targetCaps ctx' = getTargetCaps cg ∧
    Forall (λ i, inv_targetCaps i =
                 CapabilitySet_join (getTargetCaps cg)
                   (CapabilitySet_ofName (getCapabilityName (inv_profile i))))
      (invocationsOf (ghost_trace ctx')).
Proof.
  intros Hwf. split.
  - intros entry profile capSet ctx ctx' Hrun.
    by apply checkCapability_inv in Hrun as (c & -> & ->).
  - eexists. split; [by apply runPass_wellFormed|]. simpl.
    split; [done|]. apply invocations_targetCaps.
Qed.

End Claims.

(** ** The claims on the example module *)

Lemma implied_requirement_takes_no_action_witness :
  @atLeastOneSetImpliedInOther dnfCapabilities
    (CapabilitySet_join (m_targetCaps ex_context)
       (CapabilitySet_ofName (getCapabilityName ex_profileA)))
    (getCaps ex_capSet) = Implied ∧
  ∃ ctx', checkCapability 1%positive ex_profileA (Some ex_capSet) ex_context = Ok ctx' ∧
    m_sink ctx' = m_sink ex_context ∧
    m_status ctx' = m_status ex_context ∧
    m_module ctx' = m_module ex_context ∧
    m_targetCaps ctx' = m_targetCaps ex_context ∧
    m_optionSet ctx' = m_optionSet ex_context ∧
    m_mapInstToReferencingEntryPoints ctx' = m_mapInstToReferencingEntryPoints ex_context.
Proof.
  split.
  - vm_compute. reflexivity.
  - apply (implied_requirement_takes_no_action (caps := dnfCapabilities)).
    vm_compute. reflexivity.
Defined.

Lemma failure_status_sticky_and_restrictive_only_witness :
  wellFormed ex_module (ex_build ex_module) ∧
  ∃ ctx',
    runPass ex_build ex_module ex_codeGenContext [] = Ok ctx' ∧
    processLateRequireCapabilityInsts ex_build ex_module ex_codeGenContext [] =
      Ok (m_status ctx') ∧
    ghost_trace ctx' = eventsOfModule ex_module (getTargetCaps ex_codeGenContext)
                         (ex_build ex_module) ∧
    scannedOf (ghost_trace ctx') =
      (λ x, lateRequireCap_addr x.2) <$> moduleMarkers ex_module ∧
    (m_status ctx' = SLANG_OK ∨ m_status ctx' = SLANG_FAIL) ∧
    (m_status ctx' = SLANG_OK ↔
     ¬ (getBoolOption (getOptionSet ex_codeGenContext) RestrictiveCapabilityCheck = true ∧
        ∃ i, i ∈ invocationsOf (ghost_trace ctx') ∧ deficient i)) ∧
    (SLANG_SUCCEEDED (m_status ctx') = true ↔ m_status ctx' = SLANG_OK).
Proof.
  assert (wellFormed ex_module (ex_build ex_module)) as Hwf
    by (apply wellFormedb_sound; vm_compute; reflexivity).
  split; [exact Hwf|].
  exact (proj2 (failure_status_sticky_and_restrictive_only
                  ex_build ex_module ex_codeGenContext [] Hwf)).
Defined.

Lemma markers_consumed_exactly_once_witness :
  wellFormed ex_module (ex_build ex_module) ∧
  ∃ ctx',
    runPass ex_build ex_module ex_codeGenContext [] = Ok ctx' ∧
    scannedOf (ghost_trace ctx') = [31%positive] ∧
    moduleMarkers (m_module ctx') = [] ∧
    moduleChildren (m_module ctx') = moduleChildren ex_module.
Proof.
  assert (wellFormed ex_module (ex_build ex_module)) as Hwf
    by (apply wellFormedb_sound; vm_compute; reflexivity).
  split; [exact Hwf|].
  destruct (markers_consumed_exactly_once ex_build ex_module ex_codeGenContext [] Hwf)
    as (ctx' & Hrun & Hscan & _ & Hnone & Hch & _).
  exists ctx'. split; [exact Hrun|]. split; [|split; assumption].
  rewrite Hscan. vm_compute. reflexivity.
Defined.

Lemma checker_calls_count_attributed_entry_points_witness :
  wellFormed ex_module (ex_entryPointBuild ex_module) ∧
  entryPointGraph ex_module (ex_entryPointBuild ex_module) ∧
  ∃ ctx',
    runPass ex_entryPointBuild ex_module ex_codeGenContext [] = Ok ctx' ∧
    moduleMarkers (m_module ctx') = [] ∧
    length (invocationsOf (ghost_trace ctx')) = 2.
Proof.
  assert (wellFormed ex_module (ex_entryPointBuild ex_module)) as Hwf
    by (apply wellFormedb_sound; vm_compute; reflexivity).
  assert (entryPointGraph ex_module (ex_entryPointBuild ex_module)) as Hgraph
    by (apply (bool_decide_unpack _); vm_compute; exact I).
  split; [exact Hwf|]. split; [exact Hgraph|].
  destruct (checker_calls_count_attributed_entry_points
              ex_entryPointBuild ex_module ex_codeGenContext [] Hwf Hgraph)
    as (ctx' & Hrun & Hnone & Hcount).
  exists ctx'. split; [exact Hrun|]. split; [exact Hnone|].
  rewrite Hcount. vm_compute. reflexivity.
Defined.

(** C2, for every function of the heap, fails on a module whose helper
    function is not a child of the module instruction: the run completes and
    is well-formed, it never meets the marker of the helper, and the marker
    is in the heap after the run as it was before. *)
Lemma unscanned_marker_counterexample :
  wellFormed ex_nestedModule (ex_nestedBuild ex_nestedModule) ∧
  runPass ex_nestedBuild ex_nestedModule ex_codeGenContext [] = Ok ex_nestedAfterRun ∧
  (3%positive, ex_marker) ∈ heapMarkers ex_nestedModule ∧
  scannedOf (ghost_trace ex_nestedAfterRun) = [] ∧
  (3%positive, ex_marker) ∈ heapMarkers (m_module ex_nestedAfterRun) ∧
  heapMarkers (m_module ex_nestedAfterRun) ≠ [].
Proof.
  assert (wellFormed ex_nestedModule (ex_nestedBuild ex_nestedModule)) as Hwf
    by (apply wellFormedb_sound; vm_compute; reflexivity).
  assert ((3%positive, ex_marker) ∈ heapMarkers (m_module ex_nestedAfterRun)) as Hin.
  { apply elem_of_heapMarkers. exists ex_helper. split; [reflexivity|].
    exact (list_elem_of_here ex_marker []). }
  split; [exact Hwf|].
  split; [by apply (runPass_wellFormed ex_nestedBuild ex_nestedModule ex_codeGenContext [])|].
  split.
  { apply elem_of_heapMarkers. exists ex_helper. split; [reflexivity|].
    exact (list_elem_of_here ex_marker []). }
  split; [reflexivity|]. split; [exact Hin|].
  intros Hnil. rewrite Hnil in Hin. by apply elem_of_nil in Hin.
Qed.

(** C5, counting the markers of every function of the heap, fails on the
    same module: its graph attributes one decorated entry point to the helper
    function, whose marker the run leaves in the heap, and the checker is not
    called. *)
Lemma unscanned_marker_accounting_counterexample :
  wellFormed ex_nestedModule (ex_nestedBuild ex_nestedModule) ∧
  entryPointGraph ex_nestedModule (ex_nestedBuild ex_nestedModule) ∧
  runPass ex_nestedBuild ex_nestedModule ex_codeGenContext [] = Ok ex_nestedAfterRun ∧
  heapMarkers (m_module ex_nestedAfterRun) ≠ [] ∧
  length (invocationsOf (ghost_trace ex_nestedAfterRun)) = 0 ∧
  heapAttributedTotal ex_nestedModule (ex_nestedBuild ex_nestedModule) = 1 ∧
  length (invocationsOf (ghost_trace ex_nestedAfterRun)) ≠
    heapAttributedTotal ex_nestedModule (ex_nestedBuild ex_nestedModule).
Proof.
  assert (wellFormed ex_nestedModule (ex_nestedBuild ex_nestedModule)) as Hwf
    by (apply wellFormedb_sound; vm_compute; reflexivity).
  split; [exact Hwf|].
  split; [apply (bool_decide_unpack _); vm_compute; exact I|].
  split; [by apply (runPass_wellFormed ex_nestedBuild ex_nestedModule ex_codeGenContext [])|].
  split.
  { intros Hnil.
    assert ((3%positive, ex_marker) ∈ heapMarkers (m_module ex_nestedAfterRun)) as Hin.
    { apply elem_of_heapMarkers. exists ex_helper. split; [reflexivity|].
      exact (list_elem_of_here ex_marker []). }
    rewrite Hnil in Hin. by apply elem_of_nil in Hin. }
  split; [reflexivity|].
  split; [vm_compute; reflexivity|].
  vm_compute. discriminate.
Qed.

Lemma target_baseline_is_never_altered_witness :
  wellFormed ex_module (ex_build ex_module) ∧
  ∃ ctx',
    runPass ex_build ex_module ex_codeGenContext [] = Ok ctx' ∧
    m_targetCaps ctx' = getTargetCaps ex_codeGenContext ∧
    Forall (λ i, inv_targetCaps i =
                 CapabilitySet_join (getTargetCaps ex_codeGenContext)
                   (CapabilitySet_ofName (getCapabilityName (inv_profile i))))
      (invocationsOf (ghost_trace ctx')).
Proof.
  assert (wellFormed ex_module (ex_build ex_module)) as Hwf
    by (apply wellFormedb_sound; vm_compute; reflexivity).
  split; [exact Hwf|].
  exact (proj2 (target_baseline_is_never_altered
                  ex_build ex_module ex_codeGenContext [] Hwf)).
Defined.

Lemma missing_atoms_are_primary_difference_witness :
  @atLeastOneSetImpliedInOther dnfCapabilities
    (CapabilitySet_join (m_targetCaps ex_context)
       (CapabilitySet_ofName (getCapabilityName ex_profileA)))
    (getCaps ex_wideCapSet) ≠ Implied ∧
  (∃ ctx',
    checkCapability 1%positive ex_profileA (Some ex_wideCapSet) ex_context = Ok ctx' ∧
    m_sink ctx' =
      [mkDiagnostic (PosOfInst 1%positive) profileImplicitlyUpgradedRestrictive
         [ArgInst 1%positive; ArgString "sm_6_0"; ArgAtoms [9%N]];
       mkDiagnostic (PosLoc 71%N) seeCallOfFunc [ArgString "__requireCapability()"]]) ∧
  @atLeastOneSetImpliedInOther dnfCapabilities
    (CapabilitySet_join (m_targetCaps ex_context)
       (CapabilitySet_ofName (getCapabilityName ex_profileB)))
    (getCaps ex_wideCapSet) ≠ Implied ∧
  ∃ ctx',
    checkCapability 2%positive ex_profileB (Some ex_wideCapSet) ex_context = Ok ctx' ∧
    m_sink ctx' =
      [mkDiagnostic (PosOfInst 2%positive) profileImplicitlyUpgradedRestrictive
         [ArgInst 2%positive; ArgString "sm_6_0"; ArgAtoms [5%N; 9%N]];
       mkDiagnostic (PosLoc 71%N) seeCallOfFunc [ArgString "__requireCapability()"]].
Proof.
  assert (@atLeastOneSetImpliedInOther dnfCapabilities
            (CapabilitySet_join (m_targetCaps ex_context)
               (CapabilitySet_ofName (getCapabilityName ex_profileA)))
            (getCaps ex_wideCapSet) ≠ Implied) as HnotA
    by (vm_compute; discriminate).
  assert (@atLeastOneSetImpliedInOther dnfCapabilities
            (CapabilitySet_join (m_targetCaps ex_context)
               (CapabilitySet_ofName (getCapabilityName ex_profileB)))
            (getCaps ex_wideCapSet) ≠ Implied) as HnotB
    by (vm_compute; discriminate).
  split; [exact HnotA|]. split; [|split; [exact HnotB|]].
  - destruct (missing_atoms_are_primary_difference 1%positive ex_profileA ex_wideCapSet
                ex_context HnotA) as (ctx' & reported & Hrun & Hsink & _ & _ & Hdiff & _).
    exists ctx'. split; [exact Hrun|].
    destruct (Hdiff ({[9%N; 5%N]} ∪ {[5%N]}) (∅ ∪ {[5%N]})) as [-> _];
      [reflexivity|reflexivity|].
    rewrite Hsink. vm_compute. reflexivity.
  - destruct (missing_atoms_are_primary_difference 2%positive ex_profileB ex_wideCapSet
                ex_context HnotB) as (ctx' & reported & Hrun & Hsink & _ & _ & Hdiff & _).
    exists ctx'. split; [exact Hrun|].
    destruct (Hdiff ({[9%N; 5%N]} ∪ ∅) (∅ ∪ ∅)) as [-> _];
      [reflexivity|reflexivity|].
    rewrite Hsink. vm_compute. reflexivity.
Defined.



Lemma second_run_is_noop_witness :
  runPass ex_build ex_module ex_codeGenContext [] = Ok ex_afterRun ∧
  moduleMarkers (m_module ex_afterRun) = [] ∧
  ∃ ctx2,
    runPass ex_build (m_module ex_afterRun) ex_codeGenContext (m_sink ex_afterRun) = Ok ctx2 ∧
    processLateRequireCapabilityInsts ex_build (m_module ex_afterRun) ex_codeGenContext
      (m_sink ex_afterRun) = Ok SLANG_OK ∧
    m_sink ctx2 = m_sink ex_afterRun ∧
    m_status ctx2 = SLANG_OK ∧
    m_module ctx2 = m_module ex_afterRun ∧
    ghost_trace ctx2 = [].
Proof.
  assert (runPass ex_build ex_module ex_codeGenContext [] = Ok ex_afterRun) as Hrun
    by (apply (runPass_wellFormed ex_build ex_module ex_codeGenContext []),
          wellFormedb_sound; vm_compute; reflexivity).
  split; [exact Hrun|].
  exact (second_run_is_noop ex_build ex_module ex_codeGenContext [] ex_afterRun
           ex_build ex_codeGenContext (m_sink ex_afterRun) Hrun).
Defined.

Lemma capability_operand_cast_unchecked_witness :
  Forall (λ ep, is_Some (as_IRFunc (m_module ex_context) ep)) [1; 2; 4]%positive ∧
  Exists (λ ep, is_Some (as_IRFunc (m_module ex_context) ep ≫= findEntryPointDecoration))
    [1; 2; 4]%positive ∧
  forEach (visitEntryPoint ex_nullMarker) [1; 2; 4]%positive ex_context =
    Crashed NullCapabilitySet ∧
  ∃ ctx', forEach (visitEntryPoint ex_marker) [1; 2; 4]%positive ex_context = Ok ctx'.
Proof.
  assert (Forall (λ ep, is_Some (as_IRFunc (m_module ex_context) ep)) [1; 2; 4]%positive)
    as Hlive by (apply (bool_decide_unpack _); vm_compute; exact I).
  assert (Exists (λ ep, is_Some (as_IRFunc (m_module ex_context) ep
                                 ≫= findEntryPointDecoration)) [1; 2; 4]%positive)
    as Hdecor by (apply (bool_decide_unpack _); vm_compute; exact I).
  split; [exact Hlive|]. split; [exact Hdecor|]. split.
  - apply (capability_operand_cast_unchecked ex_nullMarker _ _ Hlive Hdecor).
    reflexivity.
  - apply (capability_operand_cast_unchecked ex_marker _ _ Hlive Hdecor).
    simpl. eauto.
Defined.

(** * Further properties of the pass *)

Section Further.
Context {caps : CapabilityAlgebra}.

(** ** The sink *)

Lemma eventDiagnostics_invocations o evs :
  evs ≫= eventDiagnostics o = invocationsOf evs ≫= invocationDiagnostics o.
Proof.
  induction evs as [|e evs IH]; [done|].
  rewrite bind_cons, IH. destruct e as [a|i]; [done|].
  change (invocationsOf (EvChecked i :: evs)) with (i :: invocationsOf evs).
  by rewrite bind_cons.
Qed.

Lemma length_invocationDiagnostics o l :
  length (l ≫= invocationDiagnostics o) = 2 * length (filter deficient l).
Proof.
  induction l as [|i l IH]; [done|].
  rewrite bind_cons, length_app, IH. unfold invocationDiagnostics at 1.
  destruct (decide (deficient i)) as [Hd|Hd].
  - rewrite filter_cons_True by done. simpl. lia.
  - rewrite filter_cons_False by done. simpl. lia.
Qed.

Lemma eventDiagnostics_nil o evs :
  evs ≫= eventDiagnostics o = [] ↔ existsb isDeficiency evs = false.
Proof.
  induction evs as [|e evs IH]; [done|].
  rewrite bind_cons. destruct e as [a|i]; [exact IH|].
  simpl. destruct (decide (deficient i)) as [Hd|Hd].
  - rewrite bool_decide_eq_true_2 by done. done.
  - rewrite bool_decide_eq_false_2 by done. exact IH.
Qed.

(** X1. The sink is only appended to, two diagnostics at a time: after a run
    on a well-formed module the sink is the initial sink followed, for each
    check of the run that found a deficiency and in the order of the checks,
    by the upgrade diagnostic at the entry point and the note at the source
    location of the capability set.  So the run writes twice as many
    diagnostics as it found deficiencies, and at most two for each pair of a
    marker and a decorated entry point attributed to its function. *)
Theorem diagnostics_appended_in_pairs build m cg sink :
  wellFormed m (build m) →
  ∃ ctx',
    runPass build m cg sink = Ok ctx' ∧
    m_sink ctx' =
      sink ++ (invocationsOf (ghost_trace ctx') ≫= invocationDiagnostics (getOptionSet cg)) ∧
    length (m_sink ctx') =
      length sink + 2 * length (filter deficient (invocationsOf (ghost_trace ctx'))) ∧
    length (m_sink ctx') ≤ length sink + 2 * decoratedTotal m (build m).
Proof.
  intros Hwf. eexists. split; [by apply runPass_wellFormed|]. simpl.
  rewrite eventDiagnostics_invocations. split; [done|].
  rewrite length_app, length_invocationDiagnostics. split; [done|].
  pose proof (length_filter deficient
                (invocationsOf (eventsOfModule m (getTargetCaps cg) (build m)))) as Hle.
  rewrite (invocations_count m (getTargetCaps cg) (build m)) in Hle by apply Hwf.
  lia.
Qed.

(** X2. The status and the sink agree.  After a run on a well-formed module
    the sink is unchanged exactly when no check found a deficiency; with the
    restrictive option set the pass fails exactly when it wrote a diagnostic;
    with the option unset it returns the success code whatever it wrote. *)
Theorem status_agrees_with_sink build m cg sink :
  wellFormed m (build m) →
  ∃ ctx',
    runPass build m cg sink = Ok ctx' ∧
    processLateRequireCapabilityInsts build m cg sink = Ok (m_status ctx') ∧
    (m_sink ctx' = sink ↔
     ¬ ∃ i, i ∈ invocationsOf (ghost_trace ctx') ∧ deficient i) ∧
    (getBoolOption (getOptionSet cg) RestrictiveCapabilityCheck = true →
     (m_status ctx' = SLANG_FAIL ↔ m_sink ctx' ≠ sink)) ∧
    (getBoolOption (getOptionSet cg) RestrictiveCapabilityCheck = false →
     m_status ctx' = SLANG_OK).
Proof.
  intros Hwf. eexists. split; [by apply runPass_wellFormed|].
  split; [by apply runPass_status, runPass_wellFormed|]. simpl.
  set (evs := eventsOfModule m (getTargetCaps cg) (build m)).
  assert (sink ++ (evs ≫= eventDiagnostics (getOptionSet cg)) = sink ↔
          existsb isDeficiency evs = false) as Hsink.
  { rewrite <- eventDiagnostics_nil. split.
    - intros Heq. apply (app_inv_head sink). by rewrite app_nil_r.
    - intros ->. by rewrite app_nil_r. }
  rewrite Hsink, <- existsb_isDeficiency. unfold statusAfter. simpl.
  destruct (existsb isDeficiency evs),
    (optRestrictiveCapabilityCheck (getOptionSet cg)); simpl;
    intuition (discriminate || congruence).
Qed.

(** ** What the run leaves of the functions *)

Lemma filter_ext_in {A} (P Q : A → Prop) `{!∀ x, Decision (P x)} `{!∀ x, Decision (Q x)}
    (l : list A) :
  (∀ x, x ∈ l → P x ↔ Q x) → filter P l = filter Q l.
Proof.
  induction l as [|x l IH]; intros Hext; [done|].
  assert (filter P l = filter Q l) as Htl by (apply IH; intros y Hy; apply Hext; by right).
  destruct (decide (P x)) as [HP|HP].
  - rewrite !filter_cons_True; [by rewrite Htl| |done]. apply Hext; [left|done].
  - rewrite !filter_cons_False; [done| |done]. intros HQ. apply HP, Hext; [left|done].
Qed.

Lemma unlinkAll_blocks rem f :
  unlinkAll rem f =
  mkFunc (findEntryPointDecoration f)
    (map (λ b, mkBlock (filter (λ i, inst_addr i ∉ rem) (getOrdinaryInsts b)))
       (getBlocks f)).
Proof.
  revert f. induction rem as [|a rem IH]; intros f.
  - destruct f as [d bs]. unfold unlinkAll. simpl. f_equal.
    rewrite <- (map_id bs) at 1. apply map_ext. intros [insts]. simpl. f_equal.
    symmetry. apply filter_all. intros i _. apply not_elem_of_nil.
  - change (unlinkAll (a :: rem) f) with (unlinkAll rem (removeInst a f)).
    rewrite IH. unfold removeInst. simpl. f_equal.
    rewrite map_map. apply map_ext. intros b. simpl. f_equal.
    rewrite list_filter_filter. apply filter_ext_in.
    intros i _. rewrite not_elem_of_cons. tauto.
Qed.

Lemma elem_of_markersOf f mk :
  mk ∈ markersOf f ↔ InstLateRequireCapability mk ∈ instsOf f.
Proof.
  unfold markersOf, instsOf. rewrite !list_elem_of_bind. split.
  - intros (b & Hmk & Hb). exists b. split; [|done].
    apply list_elem_of_omap in Hmk as (i & Hi & Hcast).
    destruct i; by simplify_eq/=.
  - intros (b & Hi & Hb). exists b. split; [|done].
    apply list_elem_of_omap. by exists (InstLateRequireCapability mk).
Qed.

Lemma NoDup_fmap_eq {A B} (f : A → B) (l : list A) x y :
  NoDup (f <$> l) → x ∈ l → y ∈ l → f x = f y → x = y.
Proof.
  induction l as [|z l IH]; [by intros _ ?%elem_of_nil|].
  rewrite fmap_cons, NoDup_cons. intros [Hz Hnd] Hx Hy Heq.
  apply elem_of_cons in Hx as [->|Hx], Hy as [->|Hy]; [done| | |by apply IH].
  - destruct Hz. rewrite Heq. by apply list_elem_of_fmap_2.
  - destruct Hz. rewrite <- Heq. by apply list_elem_of_fmap_2.
Qed.

(** With distinct addresses the removal loop unlinks the markers and nothing
    else. *)
Lemma stripFunc_withoutMarkers f :
  NoDup (inst_addr <$> instsOf f) → stripFunc f = withoutMarkers f.
Proof.
  intros Hnd. unfold stripFunc, withoutMarkers. rewrite unlinkAll_blocks. f_equal.
  apply map_ext_in. intros b Hb%list_elem_of_In. f_equal.
  apply filter_ext_in. intros i Hi.
  assert (i ∈ instsOf f) as Hif.
  { unfold instsOf. apply list_elem_of_bind. by exists b. }
  split.
  - intros Hnot. destruct i as [mk|a]; [|done]. destruct Hnot.
    apply list_elem_of_fmap. exists mk. split; [done|]. by apply elem_of_markersOf.
  - intros Hcast Hin. apply list_elem_of_fmap in Hin as (mk & Haddr & Hmk).
    apply elem_of_markersOf in Hmk.
    assert (i = InstLateRequireCapability mk) as ->
      by (by apply (NoDup_fmap_eq inst_addr (instsOf f))).
    done.
Qed.

Lemma elem_of_moduleFunctions m a f :
  (a, f) ∈ moduleFunctions m ↔ a ∈ moduleChildren m ∧ as_IRFunc m a = Some f.
Proof.
  unfold moduleFunctions. rewrite list_elem_of_omap. split.
  - intros (a' & Ha & Hf). destruct (as_IRFunc m a') eqn:Heq; by simplify_eq/=.
  - intros [Ha Hf]. exists a. by rewrite Hf.
Qed.

(** X3. The pass removes the markers and nothing else.  On a well-formed
    module whose functions hold each instruction once (no address occurs
    twice among the ordinary instructions of a function), the run leaves the
    children of the module as they were, every function among them with the
    same decoration and the same blocks less their markers, the other
    instructions in their order, and every other function untouched. *)
Theorem only_markers_are_removed build m cg sink :
  wellFormed m (build m) →
  Forall (λ x, NoDup (inst_addr <$> instsOf x.2)) (moduleFunctions m) →
  ∃ ctx',
    runPass build m cg sink = Ok ctx' ∧
    moduleChildren (m_module ctx') = moduleChildren m ∧
    ∀ a, as_IRFunc (m_module ctx') a =
         if decide (a ∈ moduleChildren m)
         then withoutMarkers <$> as_IRFunc m a else as_IRFunc m a.
Proof.
  intros Hwf Hnd. eexists. split; [by apply runPass_wellFormed|]. simpl.
  split; [apply moduleChildren_stripAll|].
  intros a. rewrite as_IRFunc_stripAll. case_decide as Ha; [|done].
  destruct (as_IRFunc m a) as [f|] eqn:Hf; [|done]. simpl. f_equal.
  apply stripFunc_withoutMarkers.
  apply (proj1 (Forall_forall _ _) Hnd (a, f)). by apply elem_of_moduleFunctions.
Qed.

(** X5. What the pass never touches.  After a run on a well-formed module
    the children of the module are the same, every address holds a function
    exactly when it did before, with the same entry-point decoration and the
    same number of blocks, the functions that are not children of the module
    are unchanged, and the options, the target and the target capabilities
    of the context are those it was created with; the reference map is the
    one built from the module as it was before the run. *)
Theorem pass_frame build m cg sink :
  wellFormed m (build m) →
  ∃ ctx',
    runPass build m cg sink = Ok ctx' ∧
    moduleChildren (m_module ctx') = moduleChildren m ∧
    (∀ a, findEntryPointDecoration <$> as_IRFunc (m_module ctx') a =
          findEntryPointDecoration <$> as_IRFunc m a) ∧
    (∀ a, (λ f, length (getBlocks f)) <$> as_IRFunc (m_module ctx') a =
          (λ f, length (getBlocks f)) <$> as_IRFunc m a) ∧
    (∀ a, a ∉ moduleChildren m → as_IRFunc (m_module ctx') a = as_IRFunc m a) ∧
    m_optionSet ctx' = getOptionSet cg ∧
    m_target ctx' = getTargetFormat cg ∧
    m_targetCaps ctx' = getTargetCaps cg ∧
    m_mapInstToReferencingEntryPoints ctx' = build m.
Proof.
  intros Hwf. eexists. split; [by apply runPass_wellFormed|]. simpl.
  split; [apply moduleChildren_stripAll|].
  split; [|split; [|split; [|done]]].
  - intros a. rewrite as_IRFunc_stripAll. case_decide; [|done].
    destruct (as_IRFunc m a); simpl; [|done]. by rewrite decoration_stripFunc.
  - intros a. rewrite as_IRFunc_stripAll. case_decide; [|done].
    destruct (as_IRFunc m a) as [f|]; simpl; [|done]. f_equal.
    unfold stripFunc. rewrite unlinkAll_blocks. simpl. by rewrite length_map.
  - intros a Ha. by rewrite as_IRFunc_stripAll, decide_False.
Qed.

(** X6. A module without markers is left alone.  Whatever the reference
    graph holds, dangling entry points included, the pass on a module none of
    whose functions has a marker returns the success code, writes nothing to
    the sink, changes nothing of the module and calls the checker for
    nothing. *)
Theorem no_marker_no_effect build m cg sink :
  moduleMarkers m = [] →
  runPass build m cg sink =
    Ok (set_map (build m)
          (newContext m (getTargetCaps cg) (getTargetFormat cg) (getOptionSet cg) sink)) ∧
  processLateRequireCapabilityInsts build m cg sink = Ok SLANG_OK.
Proof.
  intros Hnone.
  assert (runPass build m cg sink =
          Ok (set_map (build m)
                (newContext m (getTargetCaps cg) (getTargetFormat cg)
                   (getOptionSet cg) sink))) as Hrun.
  { unfold runPass. rewrite processModule_plan. simpl.
    rewrite planGlobals_no_markers; [|intros a f; by apply moduleMarkers_nil].
    simpl. by rewrite absorb_nil. }
  split; [exact Hrun|]. by rewrite (runPass_status _ _ _ _ _ Hrun).
Qed.

(** X8. The module a run leaves does not depend on the configuration: two
    completed runs on the same module, with any two graph builders,
    code-generation contexts and sinks, end with the same module. *)
Theorem resulting_module_independent_of_configuration
    build m cg sink ctx1 build' cg' sink' ctx2 :
  runPass build m cg sink = Ok ctx1 →
  runPass build' m cg' sink' = Ok ctx2 →
  m_module ctx1 = m_module ctx2.
Proof.
  unfold runPass. rewrite !processModule_plan. intros Hrun1 Hrun2.
  apply Run_bind_inv in Hrun1 as ([evs1 m1] & Hplan1 & [= <-]).
  apply Run_bind_inv in Hrun2 as ([evs2 m2] & Hplan2 & [= <-]).
  apply planGlobals_stripAll in Hplan1, Hplan2. simpl in *. by subst.
Qed.

(** ** Crashes *)

Lemma collect_Ok_inv {A B} (f : A → Run (list B)) xs ys :
  collect f xs = Ok ys → ∀ x, x ∈ xs → ∃ y, f x = Ok y.
Proof.
  revert ys. induction xs as [|x0 xs IH]; intros ys Hc x Hx.
  - by apply elem_of_nil in Hx.
  - simpl in Hc. apply Run_bind_inv in Hc as (us & Hu & Hc).
    apply Run_bind_inv in Hc as (vs & Hv & _).
    apply elem_of_cons in Hx as [->|Hx]; [eauto|]. by apply (IH vs).
Qed.

Lemma collect_Crashed_inv {A B} (f : A → Run (list B)) xs c :
  collect f xs = Crashed c → ∃ x, x ∈ xs ∧ f x = Crashed c.
Proof.
  induction xs as [|x0 xs IH]; [done|]. simpl.
  destruct (f x0) as [us|c0] eqn:Hx0; simpl.
  - destruct (collect f xs) as [vs|c1]; simpl; [done|].
    intros [= ->]. destruct IH as (x & Hx & Hfx); [done|].
    exists x. split; [by right|done].
  - intros [= ->]. exists x0. split; [left|done].
Qed.

Lemma planEntryPoint_Ok_inv m t mk ep evs :
  planEntryPoint m t mk ep = Ok evs →
  is_Some (as_IRFunc m ep) ∧
  (is_Some (as_IRFunc m ep ≫= findEntryPointDecoration) →
   is_Some (as_IRCapabilitySet (getCapabilitySet mk))).
Proof.
  unfold planEntryPoint.
  destruct (as_IRFunc m ep) as [f|]; [|done]. simpl.
  destruct (findEntryPointDecoration f) as [d|].
  - destruct (as_IRCapabilitySet _); [eauto|done].
  - intros _. split; [eauto|]. by intros [? ?].
Qed.

Lemma planFunc_Ok_inv m t g func f evs :
  planFunc m t g func f = Ok evs →
  ∀ mk, mk ∈ markersOf f → markerSafe m g func mk.
Proof.
  intros Hplan mk Hmk ep Hep. unfold planFunc in Hplan.
  apply list_elem_of_bind in Hmk as (b & Hmk & Hb).
  apply list_elem_of_omap in Hmk as (i & Hi & Hcast).
  destruct (collect_Ok_inv _ _ _ Hplan b Hb) as (ys & Hblock).
  destruct (collect_Ok_inv _ _ _ Hblock i Hi) as (zs & Hinst).
  unfold planInst in Hinst. rewrite Hcast in Hinst. unfold planMarker in Hinst.
  apply Run_bind_inv in Hinst as (us & Hloop & _).
  destruct (collect_Ok_inv _ _ _ Hloop ep Hep) as (vs & Hvs).
  by apply planEntryPoint_Ok_inv in Hvs.
Qed.

Lemma elem_of_moduleMarkers_inv m a mk :
  (a, mk) ∈ moduleMarkers m →
  ∃ f, a ∈ moduleChildren m ∧ as_IRFunc m a = Some f ∧ mk ∈ markersOf f.
Proof.
  unfold moduleMarkers. intros Hin.
  apply list_elem_of_bind in Hin as ([a' f] & Hin & Hf).
  apply list_elem_of_fmap in Hin as (mk' & Heq & Hin). simplify_eq.
  apply elem_of_moduleFunctions in Hf as [Ha Hf]. eauto.
Qed.

Lemma planChildren_safe m t g :
  (∀ func mk, (func, mk) ∈ moduleMarkers m → markerSafe m g func mk) →
  collect (planChild m t g) (moduleChildren m) = Ok (eventsOfModule m t g).
Proof.
  intros Hsafe. rewrite eventsOfModule_children.
  apply collect_Ok. intros a Ha. unfold planChild.
  destruct (as_IRFunc m a) as [f|] eqn:Hf; [|done].
  apply planFunc_events. intros mk Hmk. apply Hsafe.
  by apply elem_of_moduleMarkers with f.
Qed.

(** X4. When a run crashes.  On a module whose children are listed once, the
    pass completes if and only if, for every marker of the module, every
    entry point attributed to the marker's function is a function of the
    heap and, if one of them carries the entry-point decoration, the operand
    of the marker is a capability-set instruction. *)
Theorem pass_completes_iff_markers_safe build m cg sink :
  NoDup (moduleChildren m) →
  (∃ ctx', runPass build m cg sink = Ok ctx') ↔
  (∀ func lateRequireCap, (func, lateRequireCap) ∈ moduleMarkers m →
     markerSafe m (build m) func lateRequireCap).
Proof.
  intros Hnd. unfold runPass. rewrite processModule_plan. simpl.
  rewrite planGlobals_collect by done. split.
  - intros (ctx' & Hrun) func mk Hin.
    apply Run_bind_inv in Hrun as ([evs m'] & Hplan & _).
    apply Run_bind_inv in Hplan as (evs' & Hcollect & _).
    apply elem_of_moduleMarkers_inv in Hin as (f & Ha & Hf & Hmk).
    destruct (collect_Ok_inv _ _ _ Hcollect func Ha) as (ys & Hchild).
    unfold planChild in Hchild. rewrite Hf in Hchild.
    by apply (planFunc_Ok_inv _ _ _ _ _ _ Hchild).
  - intros Hsafe. rewrite planChildren_safe by done. simpl. eauto.
Qed.

Lemma liveEntryPoints_attributed m g func ep :
  liveEntryPoints m g → ep ∈ attributed g func → is_Some (as_IRFunc m ep).
Proof.
  unfold liveEntryPoints, attributed. intros Hlive.
  destruct (g !! func) as [eps|] eqn:Hg; simpl; [|by intros ?%elem_of_nil].
  intros Hep. specialize (Hlive _ _ Hg). simpl in Hlive.
  by apply (proj1 (Forall_forall _ _) Hlive).
Qed.

Lemma liveEntryPoints_stripAt a m g :
  liveEntryPoints m g → liveEntryPoints (stripAt a m) g.
Proof.
  unfold liveEntryPoints. intros Hlive func eps Hg. specialize (Hlive _ _ Hg).
  simpl in *. eapply Forall_impl; [exact Hlive|].
  intros ep [f Hf]. rewrite as_IRFunc_stripAt, Hf. case_decide; simpl; eauto.
Qed.

Lemma planFunc_crash m t g func f c :
  liveEntryPoints m g → planFunc m t g func f = Crashed c → c = NullCapabilitySet.
Proof.
  intros Hlive Hplan. unfold planFunc in Hplan.
  apply collect_Crashed_inv in Hplan as (b & _ & Hblock).
  apply collect_Crashed_inv in Hblock as (i & _ & Hinst).
  unfold planInst in Hinst. destruct (as_IRLateRequireCapability i) as [mk|]; [|done].
  unfold planMarker in Hinst.
  destruct (collect _ (attributed g func)) as [evs|c'] eqn:Hloop; [done|].
  simpl in Hinst. simplify_eq.
  apply collect_Crashed_inv in Hloop as (ep & Hep & Hcrash).
  destruct (liveEntryPoints_attributed _ _ _ _ Hlive Hep) as [f' Hf'].
  unfold planEntryPoint in Hcrash. rewrite Hf' in Hcrash.
  by repeat case_match; simplify_eq.
Qed.

Lemma planGlobals_crash t g l m c :
  liveEntryPoints m g → planGlobals t g l m = Crashed c → c = NullCapabilitySet.
Proof.
  revert m. induction l as [|a l IH]; intros m Hlive; [done|]. cbn [planGlobals].
  destruct (as_IRFunc m a) as [f|] eqn:Hf; [|by apply IH].
  destruct (planFunc m t g a f) as [evs|c'] eqn:Hplan; simpl.
  - destruct (planGlobals t g l (stripAt a m)) as [r|c'] eqn:Hrest; simpl; [done|].
    intros [= ->]. by apply (IH (stripAt a m)); [apply liveEntryPoints_stripAt|].
  - intros [= ->]. by apply (planFunc_crash m t g a f).
Qed.

(** X7. The only crash of a run whose reference graph holds functions of the
    heap is the null dereference in the checker: when every entry point of
    the graph built for the module is a function, the pass either completes
    or dereferences the null result of the cast of a marker's operand. *)
Theorem only_crash_is_null_capability_set build m cg sink :
  liveEntryPoints m (build m) →
  (∃ ctx', runPass build m cg sink = Ok ctx') ∨
  runPass build m cg sink = Crashed NullCapabilitySet.
Proof.
  intros Hlive. unfold runPass. rewrite processModule_plan. simpl.
  destruct (planGlobals _ _ _ m) as [r|c] eqn:Hplan; simpl; [eauto|].
  right. f_equal. by apply planGlobals_crash in Hplan.
Qed.

End Further.

Section Modes.
Context {caps : CapabilityAlgebra}.

Lemma eventDiagnostics_positions o o' evs :
  diag_pos <$> (evs ≫= eventDiagnostics o) = diag_pos <$> (evs ≫= eventDiagnostics o') ∧
  (optProfileName o = optProfileName o' →
   diag_args <$> (evs ≫= eventDiagnostics o) = diag_args <$> (evs ≫= eventDiagnostics o')).
Proof.
  induction evs as [|e evs [IHp IHa]]; [done|].
  rewrite !bind_cons, !fmap_app, IHp. split.
  - f_equal. destruct e as [a|i]; [done|]. simpl. by case_decide.
  - intros Hname. rewrite (IHa Hname). f_equal.
    destruct e as [a|i]; [done|]. simpl. case_decide; [|done].
    simpl. by rewrite Hname.
Qed.

(** X9. The restrictive option changes the verdict, not the work.  Two runs
    on a well-formed module that differ in the options, the target format
    and the initial sink, but not in the target capabilities, scan the same
    markers and make the same checks in the same order, leave the same
    module, and write diagnostics at the same positions; when the configured
    profile name is the same too, the diagnostics carry the same
    arguments. *)
Theorem options_do_not_change_the_checks build m cg cg' sink sink' :
  wellFormed m (build m) →
  getTargetCaps cg = getTargetCaps cg' →
  ∃ ctx1 ctx2 diags1 diags2,
    runPass build m cg sink = Ok ctx1 ∧
    runPass build m cg' sink' = Ok ctx2 ∧
    ghost_trace ctx1 = ghost_trace ctx2 ∧
    m_module ctx1 = m_module ctx2 ∧
    m_sink ctx1 = sink ++ diags1 ∧
    m_sink ctx2 = sink' ++ diags2 ∧
    diag_pos <$> diags1 = diag_pos <$> diags2 ∧
    (optProfileName (getOptionSet cg) = optProfileName (getOptionSet cg') →
     diag_args <$> diags1 = diag_args <$> diags2).
Proof.
  intros Hwf Hcaps. eexists _, _, _, _.
  split; [by apply runPass_wellFormed|].
  split; [by apply runPass_wellFormed|]. simpl. rewrite Hcaps.
  split; [done|]. split; [done|]. split; [done|]. split; [done|].
  apply eventDiagnostics_positions.
Qed.

End Modes.

(** ** The further properties on the example module *)

Lemma diagnostics_appended_in_pairs_witness :
  wellFormed ex_module (ex_build ex_module) ∧
  ∃ ctx',
    runPass ex_build ex_module ex_codeGenContext [] = Ok ctx' ∧
    m_sink ctx' =
      [] ++ (invocationsOf (ghost_trace ctx')
             ≫= invocationDiagnostics (getOptionSet ex_codeGenContext)) ∧
    length (m_sink ctx') =
      length (@nil Diagnostic)
      + 2 * length (filter deficient (invocationsOf (ghost_trace ctx'))) ∧
    length (m_sink ctx') ≤
      length (@nil Diagnostic) + 2 * decoratedTotal ex_module (ex_build ex_module).
Proof.
  assert (wellFormed ex_module (ex_build ex_module)) as Hwf
    by (apply wellFormedb_sound; vm_compute; reflexivity).
  split; [exact Hwf|].
  exact (diagnostics_appended_in_pairs ex_build ex_module ex_codeGenContext [] Hwf).
Defined.

Lemma status_agrees_with_sink_witness :
  wellFormed ex_module (ex_build ex_module) ∧
  ∃ ctx',
    runPass ex_build ex_module ex_codeGenContext [] = Ok ctx' ∧
    processLateRequireCapabilityInsts ex_build ex_module ex_codeGenContext [] =
      Ok (m_status ctx') ∧
    (m_sink ctx' = [] ↔
     ¬ ∃ i, i ∈ invocationsOf (ghost_trace ctx') ∧ deficient i) ∧
    (getBoolOption (getOptionSet ex_codeGenContext) RestrictiveCapabilityCheck = true →
     (m_status ctx' = SLANG_FAIL ↔ m_sink ctx' ≠ [])) ∧
    (getBoolOption (getOptionSet ex_codeGenContext) RestrictiveCapabilityCheck = false →
     m_status ctx' = SLANG_OK).
Proof.
  assert (wellFormed ex_module (ex_build ex_module)) as Hwf
    by (apply wellFormedb_sound; vm_compute; reflexivity).
  split; [exact Hwf|].
  exact (status_agrees_with_sink ex_build ex_module ex_codeGenContext [] Hwf).
Defined.

Lemma only_markers_are_removed_witness :
  wellFormed ex_module (ex_build ex_module) ∧
  Forall (λ x, NoDup (inst_addr <$> instsOf x.2)) (moduleFunctions ex_module) ∧
  ∃ ctx',
    runPass ex_build ex_module ex_codeGenContext [] = Ok ctx' ∧
    moduleChildren (m_module ctx') = moduleChildren ex_module ∧
    as_IRFunc (m_module ctx') 3%positive =
      Some (mkFunc None [mkBlock [InstOther 30%positive; InstOther 32%positive]]).
Proof.
  assert (wellFormed ex_module (ex_build ex_module)) as Hwf
    by (apply wellFormedb_sound; vm_compute; reflexivity).
  assert (Forall (λ x, NoDup (inst_addr <$> instsOf x.2)) (moduleFunctions ex_module))
    as Hnd by (apply (bool_decide_unpack _); vm_compute; exact I).
  split; [exact Hwf|]. split; [exact Hnd|].
  destruct (only_markers_are_removed ex_build ex_module ex_codeGenContext [] Hwf Hnd)
    as (ctx' & Hrun & Hch & Hfs).
  exists ctx'. split; [exact Hrun|]. split; [exact Hch|].
  rewrite Hfs. reflexivity.
Defined.

Lemma pass_completes_iff_markers_safe_witness :
  NoDup (moduleChildren ex_module) ∧
  ((∃ ctx', runPass ex_build ex_module ex_codeGenContext [] = Ok ctx') ↔
   (∀ func lateRequireCap, (func, lateRequireCap) ∈ moduleMarkers ex_module →
      markerSafe ex_module (ex_build ex_module) func lateRequireCap)).
Proof.
  assert (NoDup (moduleChildren ex_module)) as Hnd
    by (apply (bool_decide_unpack _); vm_compute; exact I).
  split; [exact Hnd|].
  exact (pass_completes_iff_markers_safe ex_build ex_module ex_codeGenContext [] Hnd).
Defined.

Lemma pass_frame_witness :
  wellFormed ex_module (ex_build ex_module) ∧
  ∃ ctx',
    runPass ex_build ex_module ex_codeGenContext [] = Ok ctx' ∧
    moduleChildren (m_module ctx') = moduleChildren ex_module ∧
    (∀ a, findEntryPointDecoration <$> as_IRFunc (m_module ctx') a =
          findEntryPointDecoration <$> as_IRFunc ex_module a) ∧
    (∀ a, (λ f, length (getBlocks f)) <$> as_IRFunc (m_module ctx') a =
          (λ f, length (getBlocks f)) <$> as_IRFunc ex_module a) ∧
    (∀ a, a ∉ moduleChildren ex_module →
          as_IRFunc (m_module ctx') a = as_IRFunc ex_module a) ∧
    m_optionSet ctx' = getOptionSet ex_codeGenContext ∧
    m_target ctx' = getTargetFormat ex_codeGenContext ∧
    m_targetCaps ctx' = getTargetCaps ex_codeGenContext ∧
    m_mapInstToReferencingEntryPoints ctx' = ex_build ex_module.
Proof.
  assert (wellFormed ex_module (ex_build ex_module)) as Hwf
    by (apply wellFormedb_sound; vm_compute; reflexivity).
  split; [exact Hwf|].
  exact (pass_frame ex_build ex_module ex_codeGenContext [] Hwf).
Defined.

Lemma no_marker_no_effect_witness :
  moduleMarkers (m_module ex_afterRun) = [] ∧
  runPass ex_build (m_module ex_afterRun) ex_advisoryCodeGenContext [] =
    Ok (set_map (ex_build (m_module ex_afterRun))
          (newContext (m_module ex_afterRun) (getTargetCaps ex_advisoryCodeGenContext)
             (getTargetFormat ex_advisoryCodeGenContext)
             (getOptionSet ex_advisoryCodeGenContext) [])) ∧
  processLateRequireCapabilityInsts ex_build (m_module ex_afterRun)
    ex_advisoryCodeGenContext [] = Ok SLANG_OK.
Proof.
  assert (moduleMarkers (m_module ex_afterRun) = []) as Hnone by reflexivity.
  split; [exact Hnone|].
  exact (no_marker_no_effect ex_build (m_module ex_afterRun)
           ex_advisoryCodeGenContext [] Hnone).
Defined.

Lemma only_crash_is_null_capability_set_witness :
  liveEntryPoints ex_nullModule (ex_build ex_nullModule) ∧
  ((∃ ctx', runPass ex_build ex_nullModule ex_codeGenContext [] = Ok ctx') ∨
   runPass ex_build ex_nullModule ex_codeGenContext [] = Crashed NullCapabilitySet).
Proof.
  assert (liveEntryPoints ex_nullModule (ex_build ex_nullModule)) as Hlive
    by (apply (bool_decide_unpack _); vm_compute; exact I).
  split; [exact Hlive|].
  exact (only_crash_is_null_capability_set ex_build ex_nullModule ex_codeGenContext []
           Hlive).
Defined.

Lemma resulting_module_independent_of_configuration_witness :
  runPass ex_build ex_module ex_codeGenContext [] = Ok ex_afterRun ∧
  runPass ex_orphanBuild ex_module ex_advisoryCodeGenContext [] = Ok ex_afterOrphanRun ∧
  m_module ex_afterRun = m_module ex_afterOrphanRun.
Proof.
  assert (runPass ex_build ex_module ex_codeGenContext [] = Ok ex_afterRun) as Hrun1
    by (apply (runPass_wellFormed ex_build ex_module ex_codeGenContext []),
          wellFormedb_sound; vm_compute; reflexivity).
  assert (runPass ex_orphanBuild ex_module ex_advisoryCodeGenContext [] =
          Ok ex_afterOrphanRun) as Hrun2
    by (apply (runPass_wellFormed ex_orphanBuild ex_module ex_advisoryCodeGenContext []),
          wellFormedb_sound; vm_compute; reflexivity).
  split; [exact Hrun1|]. split; [exact Hrun2|].
  exact (resulting_module_independent_of_configuration _ _ _ _ _ _ _ _ _ Hrun1 Hrun2).
Defined.

Lemma options_do_not_change_the_checks_witness :
  wellFormed ex_module (ex_build ex_module) ∧
  getTargetCaps ex_codeGenContext =
    getTargetCaps (mkCodeGenContext (caps := dnfCapabilities) [∅] 3%N
                     (mkOptionSet false "sm_6_0")) ∧
  ∃ ctx1 ctx2 diags1 diags2,
    runPass ex_build ex_module ex_codeGenContext [] = Ok ctx1 ∧
    runPass ex_build ex_module
      (mkCodeGenContext (caps := dnfCapabilities) [∅] 3%N (mkOptionSet false "sm_6_0"))
      [] = Ok ctx2 ∧
    ghost_trace ctx1 = ghost_trace ctx2 ∧
    m_module ctx1 = m_module ctx2 ∧
    m_sink ctx1 = [] ++ diags1 ∧
    m_sink ctx2 = [] ++ diags2 ∧
    diag_pos <$> diags1 = diag_pos <$> diags2 ∧
    (optProfileName (getOptionSet ex_codeGenContext) = "sm_6_0" →
     diag_args <$> diags1 = diag_args <$> diags2).
Proof.
  assert (wellFormed ex_module (ex_build ex_module)) as Hwf
    by (apply wellFormedb_sound; vm_compute; reflexivity).
  split; [exact Hwf|]. split; [reflexivity|].
  exact (options_do_not_change_the_checks ex_build ex_module ex_codeGenContext
           (mkCodeGenContext (caps := dnfCapabilities) [∅] 3%N (mkOptionSet false "sm_6_0"))
           [] [] Hwf eq_refl).
Defined.
